(** * spleen-elasticsearch: conversion of spleen filters to Elasticsearch Query DSL

    A shallow embedding of [lib/errors.js], [lib/strategy.js] and
    [lib/convert.js], and the properties of the conversion proved over it.

    JavaScript values are embedded as the inductive [jsval]; objects are
    association lists in property-insertion order.  The [Builder] class, whose
    methods mutate [this._fields] and [this.fields] and throw, is embedded as
    a state-and-error monad over the [Builder] record. *)

From Stdlib Require Import ZArith String Ascii List DecimalString.
From stdpp Require Import base decidable option list strings gmap.

Local Open Scope string_scope.
Local Open Scope list_scope.
#[local] Set Warnings "-clear-no-such-hyp".

(** ** JavaScript values *)

(** A path segment of a spleen [Target]: a string, or a number.  The
    conversion does one thing with a number segment: it calls [toString()] on
    it; the string that call returns ([0], [-1], [1.5], [1e+21], ...) is
    carried here and stands for the number. *)
Inductive segment :=
| SegStr (s : string)
| SegNum (toString : string).

(** [spleen.Target].  The class lives in the spleen package; the conversion
    reads [target.field] and [target.path], and [errors.InvalidTargetError]
    calls [target.toJsonPointer()], whose result is carried here. *)
Record Target := {
  field : string;
  path : list segment;
  toJsonPointer : string;
}.

(** The values a clause operand can hold.  Numbers are only ever carried
    through to the output, never computed with.  [JLike value regex] is an
    instance of [spleen.Like] whose [value] property is [value] and whose
    [toRegexString()] method returns [regex]; [JRange] is [spleen.Range]. *)
#[warnings="-register-all"]
Inductive jsval :=
| JUndefined
| JNull
| JBool (b : bool)
| JNum (z : Z)
| JStr (s : string)
| JArr (items : list jsval)
| JObj (props : list (string * jsval))
| JTarget (t : Target)
| JLike (value : jsval) (toRegexString : string)
| JRange (lower upper : jsval).

(** [o[k]] on an object literal built by this library. *)
Fixpoint assoc (k : string) (props : list (string * jsval)) : option jsval :=
  match props with
  | [] => None
  | (k', v) :: rest => if String.eqb k k' then Some v else assoc k rest
  end.

Definition get (k : string) (o : jsval) : option jsval :=
  match o with
  | JObj props => assoc k props
  | _ => None
  end.

Definition has_key (k : string) (o : jsval) : bool :=
  match get k o with Some _ => true | None => false end.

(** [o[k] = v] on an object the library builds, as far as the object's own
    properties go: an own property [k] is overwritten in place, a new one is
    appended.  For the key [__proto__] the assignment runs the setter
    inherited from [Object.prototype]: it creates no own property, so the
    object serialises as before. *)
Fixpoint set_own (k : string) (v : jsval) (props : list (string * jsval))
    : list (string * jsval) :=
  match props with
  | [] => [(k, v)]
  | (k', v') :: rest =>
      if String.eqb k k' then (k, v) :: rest else (k', v') :: set_own k v rest
  end.

Definition assign (o : jsval) (k : string) (v : jsval) : jsval :=
  match o with
  | JObj props =>
      if String.eqb k "__proto__" then JObj props else JObj (set_own k v props)
  | _ => o
  end.

(** [elv(v)]: neither [undefined] nor [null]. *)
Definition elv (v : jsval) : bool :=
  match v with
  | JUndefined | JNull => false
  | _ => true
  end.

(** The double-quote character, for the messages that contain it. *)
Definition dq : string := String (ascii_of_nat 34) EmptyString.

(** ** lib/errors.js *)

Inductive error_data :=
| NoData
| FieldData (f : string)
| PathData (p : list segment).

(** An error object: its [name], [message] and [data] properties. *)
Record error := mkError {
  name : string;
  message : string;
  data : error_data;
}.

Inductive result (A : Type) :=
| Ok (a : A)
| Err (e : error).
Arguments Ok {A} a.
Arguments Err {A} e.

(** The built-in [TypeError]. *)
Definition TypeError (m : string) : error :=
  {| name := "TypeError"; message := m; data := NoData |}.

Module errors.

Module msg.
Definition deniedField := "Black listed field encountered: ".
Definition invalidTarget := "Invalid target encountered: ".
Definition nonallowedField := "Non-white listed field encountered: ".
Definition requiredField := "Missing required field: ".
Definition convert := "Invalid filter.  Unable to convert.".
End msg.

Definition ConvertError (m : option string) : error :=
  {| name := "ConvertError"; message := default msg.convert m; data := NoData |}.

Definition DeniedFieldError (f : string) : error :=
  {| name := "DeniedFieldError"; message := msg.deniedField +:+ f;
     data := FieldData f |}.

Definition InvalidTargetError (target : Target) : error :=
  {| name := "InvalidTargetError";
     message := msg.invalidTarget +:+ toJsonPointer target;
     data := PathData (path target) |}.

Definition NonallowedFieldError (f : string) : error :=
  {| name := "NonallowedFieldError"; message := msg.nonallowedField +:+ f;
     data := FieldData f |}.

Definition RequiredFieldError (f : string) : error :=
  {| name := "RequiredFieldError"; message := msg.requiredField +:+ f;
     data := FieldData f |}.

(** The names under [module.exports]. *)
Definition exports : list string :=
  ["ConvertError"; "DeniedFieldError"; "InvalidTargetError";
   "NonallowedFieldError"; "RequiredFieldError"].

End errors.

(** Whether an error is an instance of one of the exported error kinds. *)
Definition in_taxonomy (e : error) : bool :=
  bool_decide (name e ∈ errors.exports).

(** ** lib/strategy.js *)

Module Settings.
(** The [settings] object handed to [new Strategy].  [allow] and [deny] are
    arbitrary values ([JUndefined] when the key is absent); [require] is
    never inspected by the constructor and is typed as the list of field
    strings the conversion expects, [None] when absent. *)
Record t := {
  allow : jsval;
  deny : jsval;
  require : option (list string);
}.
Definition empty : t :=
  {| allow := JUndefined; deny := JUndefined; require := None |}.
End Settings.

(** What a caller can pass as [settings]. *)
Inductive SettingsArg :=
| ArgNullish
| ArgPrimitive (v : jsval)
| ArgObject (s : Settings.t).

Module strategy_msg.
Definition argSettingsRequired :=
  "Argument " +:+ dq +:+ "settings" +:+ dq +:+ " is required".
Definition argSettingsObj :=
  "Argument " +:+ dq +:+ "settings" +:+ dq +:+ " must be an object".
Definition argSettingsAllowDeny :=
  "Argument " +:+ dq +:+ "settings" +:+ dq +:+ " cannot have by " +:+ dq
    +:+ "allow" +:+ dq +:+ " and " +:+ dq +:+ "deny" +:+ dq.
End strategy_msg.

Fixpoint createTargetSet_loop (nm : string) (value : list jsval)
    (set : gset string) : result (gset string) :=
  match value with
  | [] => Ok set
  | JStr val :: rest => createTargetSet_loop nm rest (set ∪ {[val]})
  | _ :: _ =>
      Err (TypeError ("Argument " +:+ dq +:+ "settings." +:+ nm
                        +:+ " must contain strings"))
  end.

Definition createTargetSet (value : jsval) (nm : string) : result (gset string) :=
  if negb (elv value) then Ok ∅
  else match value with
       | JArr items => createTargetSet_loop nm items ∅
       | _ => Err (TypeError ("Argument " +:+ dq +:+ "settings." +:+ nm +:+ dq
                                +:+ " must be an array"))
       end.

Record Strategy := {
  allow : gset string;
  deny : gset string;
  require : list string;
}.

(** [new Strategy(settings)]. *)
Definition Strategy_new (settings : SettingsArg) : result Strategy :=
  match settings with
  | ArgNullish => Err (TypeError strategy_msg.argSettingsRequired)
  | ArgPrimitive _ => Err (TypeError strategy_msg.argSettingsObj)
  | ArgObject settings =>
      match createTargetSet (Settings.allow settings) "allow" with
      | Err e => Err e
      | Ok allow =>
          match createTargetSet (Settings.deny settings) "deny" with
          | Err e => Err e
          | Ok deny =>
              let require := default [] (Settings.require settings) in
              if bool_decide (0 < size allow) && bool_decide (0 < size deny)
              then Err (TypeError strategy_msg.argSettingsAllowDeny)
              else Ok {| allow := allow; deny := deny; require := require |}
          end
      end
  end.

(** ** lib/convert.js: the data handed over by spleen *)

Record Operator := { type : string }.

Record Clause := {
  subject : jsval;
  operator : Operator;
  object : jsval;
}.

(** [spleen.Filter]: a list of statements, each with the conjunction that
    joins it to the previous one and a value that is a [Filter], a [Clause],
    or (in a corrupted filter) something else. *)
Inductive Filter :=
| mkFilter (statements : list Statement)
with Statement :=
| mkStatement (conjunctive : string) (value : StatementValue)
with StatementValue :=
| VFilter (f : Filter)
| VClause (c : Clause)
| VOther (v : jsval).

Definition statements (f : Filter) : list Statement :=
  match f with mkFilter l => l end.
Definition conjunctive (s : Statement) : string :=
  match s with mkStatement c _ => c end.
Definition statement_value (s : Statement) : StatementValue :=
  match s with mkStatement _ v => v end.

(** Structural induction on filters: the property may be assumed of every
    sub-filter that is the value of a statement. *)
Definition holds_of_subfilter (P : Filter → Prop) (s : Statement) : Prop :=
  match statement_value s with
  | VFilter sub => P sub
  | _ => True
  end.

Section Filter_induction.
Variable P : Filter → Prop.
Hypothesis step :
  ∀ stmts, Forall (holds_of_subfilter P) stmts → P (mkFilter stmts).

Fixpoint Filter_induction (f : Filter) : P f :=
  match f with
  | mkFilter stmts =>
      step stmts
        ((fix go (l : list Statement) : Forall (holds_of_subfilter P) l :=
            match l with
            | [] => List.Forall_nil _
            | s :: l' =>
                @List.Forall_cons _ _ s l'
                  (match s return holds_of_subfilter P s with
                   | mkStatement _ v =>
                       match v return
                         holds_of_subfilter P (mkStatement _ v) with
                       | VFilter sub => Filter_induction sub
                       | VClause _ => I
                       | VOther _ => I
                       end
                   end)
                  (go l')
            end) stmts)
  end.
End Filter_induction.

(** ** lib/convert.js *)

Module msg.
Definition argFilter :=
  "Argument " +:+ dq +:+ "filter" +:+ dq
    +:+ " must be an instance of spleen.Filter".
Definition argStrategy :=
  "Argument " +:+ dq +:+ "strategy" +:+ dq
    +:+ " must be an instance of Strategy".
End msg.

(** The characters of the class in the [invalidTarget] regular expression. *)
Definition invalidTarget_chars : list ascii :=
  ascii_of_nat 34 :: list_ascii_of_string "{};,[]:()'*>#~@&%?`".

(** Whether two hyphens in a row occur in the string. *)
Fixpoint has_hyphens (s : string) : bool :=
  match s with
  | EmptyString => false
  | String c rest =>
      match rest with
      | String c' _ =>
          (Ascii.eqb c "-" && Ascii.eqb c' "-") || has_hyphens rest
      | EmptyString => false
      end
  end.

(** [invalidTarget.test(s)]. *)
Definition invalidTarget_test (s : string) : bool :=
  existsb (λ c, bool_decide (c ∈ invalidTarget_chars)) (list_ascii_of_string s)
  || has_hyphens s.

(** [new Strategy({})]. *)
Definition defaultStrategy : Strategy :=
  {| allow := ∅; deny := ∅; require := [] |}.

Definition obj1 (k : string) (v : jsval) : jsval := JObj [(k, v)].

Definition not_ (dsl : jsval) : jsval :=
  obj1 "bool" (obj1 "must_not" dsl).

Definition scriptOperator (operator : Operator) : result string :=
  let t := type operator in
  if String.eqb t "eq" then Ok "=="
  else if String.eqb t "neq" then Ok "!="
  else if String.eqb t "gt" then Ok ">"
  else if String.eqb t "gte" then Ok ">="
  else if String.eqb t "lt" then Ok "<"
  else if String.eqb t "lte" then Ok "<="
  else Err (errors.ConvertError None).

Definition scriptLiterals (clause : Clause) : result jsval :=
  match scriptOperator (operator clause) with
  | Err e => Err e
  | Ok op =>
      Ok (obj1 "script"
            (obj1 "script"
               (JObj [("source",
                        JStr ("params.subject " +:+ op +:+ " params.object"));
                      ("params",
                        JObj [("subject", subject clause);
                              ("object", object clause)])])))
  end.

Definition is_Target (v : jsval) : bool :=
  match v with JTarget _ => true | _ => false end.

Definition normalizeClause (clause : Clause) : Clause :=
  if is_Target (object clause) then
    let t := type (operator clause) in
    {| subject := object clause;
       operator :=
         if String.eqb t "gt" then {| type := "lt" |}
         else if String.eqb t "gte" then {| type := "lte" |}
         else if String.eqb t "lt" then {| type := "gt" |}
         else if String.eqb t "lte" then {| type := "gte" |}
         else operator clause;
       object := subject clause |}
  else clause.

(** *** The [Builder] class *)

Record Builder := {
  _filter : Filter;
  _strategy : Strategy;
  _fields : gset string;
  fields : list string;
  value : jsval;
}.

(** A method of [Builder]: it reads and updates [this], and returns or
    throws. *)
Definition M (A : Type) : Type := Builder → result (A * Builder).

Definition ret {A} (a : A) : M A := λ this, Ok (a, this).
Definition throw {A} (e : error) : M A := λ _, Err e.
Definition bind {A B} (m : M A) (k : A → M B) : M B :=
  λ this, match m this with
          | Ok (a, this') => k a this'
          | Err e => Err e
          end.
Definition lift {A} (r : result A) : M A :=
  λ this, match r with Ok a => Ok (a, this) | Err e => Err e end.

Notation "x <- m ;; k" := (bind m (λ x, k))
  (at level 100, m at next level, right associativity).

(** [segment.toString()] when the segment is not already a string. *)
Definition segment_toString (s : segment) : string :=
  match s with
  | SegStr s => s
  | SegNum toString => toString
  end.

(** The loop of [_target] over [target.path], with [val] the key so far. *)
Fixpoint _target_path (target : Target) (segs : list segment) (val : string)
    : result string :=
  match segs with
  | [] => Ok val
  | seg :: rest =>
      let segment := segment_toString seg in
      if invalidTarget_test segment
      then Err (errors.InvalidTargetError target)
      else
        let val := if bool_decide (0 < String.length val)
                   then val +:+ "." else val in
        _target_path target rest (val +:+ segment)
  end.

Definition register (f : string) (this : Builder) : Builder :=
  if bool_decide (f ∈ _fields this) then this
  else {| _filter := _filter this; _strategy := _strategy this;
          _fields := _fields this ∪ {[f]};
          fields := fields this ++ [f];
          value := value this |}.

Definition _target (target : Target) : M string := λ this,
  let allow := allow (_strategy this) in
  let deny := deny (_strategy this) in
  if bool_decide (0 < size allow) && negb (bool_decide (field target ∈ allow))
  then Err (errors.NonallowedFieldError (field target))
  else if bool_decide (0 < size deny) && bool_decide (field target ∈ deny)
  then Err (errors.DeniedFieldError (field target))
  else match _target_path target (path target) "" with
       | Err e => Err e
       | Ok val => Ok (val, register (field target) this)
       end.

(** The clause methods call [this._target(clause.subject)].  [_build] hands
    them only clauses whose subject is a [Target] (see
    [normalizeClause_subject] below), so the second branch is never taken. *)
Definition as_Target (v : jsval) : Target :=
  match v with
  | JTarget t => t
  | _ => {| field := ""; path := []; toJsonPointer := "" |}
  end.

Definition _scriptTargets (clause : Clause) : M jsval :=
  s <- _target (as_Target (subject clause)) ;;
  op <- lift (scriptOperator (operator clause)) ;;
  o <- _target (as_Target (object clause)) ;;
  ret (obj1 "script"
         (obj1 "script"
            (JStr ("doc['" +:+ s +:+ "'].value " +:+ op
                     +:+ " doc['" +:+ o +:+ "'].value")))).

Definition _comparison (clause : Clause) : M jsval :=
  let svo := JObj [] in
  key <- _target (as_Target (subject clause)) ;;
  ret (assign svo key (object clause)).

Definition _exists (clause : Clause) : M jsval :=
  key <- _target (as_Target (subject clause)) ;;
  ret (obj1 "exists" (obj1 "field" (JStr key))).

Definition _range (clause : Clause) : M jsval :=
  let predicate := assign (JObj []) (type (operator clause)) (object clause) in
  let svo := JObj [] in
  key <- _target (as_Target (subject clause)) ;;
  ret (obj1 "range" (assign svo key predicate)).

(** [clause.object === null]. *)
Definition is_null (v : jsval) : bool :=
  match v with JNull => true | _ => false end.

Definition _eq (clause : Clause) : M jsval :=
  if is_null (object clause)
  then (e <- _exists clause ;; ret (not_ e))
  else (c <- _comparison clause ;; ret (obj1 "term" c)).

Definition _neq (clause : Clause) : M jsval :=
  if is_null (object clause)
  then _exists clause
  else (e <- _eq clause ;; ret (not_ e)).

Definition _gt (clause : Clause) : M jsval :=
  if is_null (object clause) then _exists clause else _range clause.

Definition _gte (clause : Clause) : M jsval :=
  if is_null (object clause) then _exists clause else _range clause.

Definition _lt (clause : Clause) : M jsval :=
  if is_null (object clause)
  then (e <- _exists clause ;; ret (not_ e))
  else _range clause.

Definition _lte (clause : Clause) : M jsval :=
  if is_null (object clause)
  then (e <- _exists clause ;; ret (not_ e))
  else _range clause.

(** [regex.endsWith('$')] and [regex.slice(0, -1)]. *)
Fixpoint endsWith_dollar (s : string) : bool :=
  match s with
  | EmptyString => false
  | String c EmptyString => Ascii.eqb c "$"
  | String _ rest => endsWith_dollar rest
  end.

Fixpoint slice_0_m1 (s : string) : string :=
  match s with
  | EmptyString => EmptyString
  | String _ EmptyString => EmptyString
  | String c rest => String c (slice_0_m1 rest)
  end.

(** [regex.slice(1)]. *)
Definition slice_1 (s : string) : string :=
  match s with
  | EmptyString => EmptyString
  | String _ rest => rest
  end.

(** [regex.startsWith('^')]. *)
Definition startsWith_caret (s : string) : bool :=
  match s with
  | EmptyString => false
  | String c _ => Ascii.eqb c "^"
  end.

(** The two conditional slices of [_like]. *)
Definition strip_anchors (regex : string) : string :=
  let regex := if startsWith_caret regex then slice_1 regex else regex in
  if endsWith_dollar regex then slice_0_m1 regex else regex.

Definition _like (clause : Clause) : M jsval :=
  match object clause with
  | JLike (JStr _) toRegexString =>
      let regex := strip_anchors toRegexString in
      let svo := JObj [] in
      key <- _target (as_Target (subject clause)) ;;
      ret (obj1 "regexp" (assign svo key (JStr regex)))
  | _ => throw (errors.ConvertError None)
  end.

Definition _nlike (clause : Clause) : M jsval :=
  r <- _like clause ;; ret (not_ r).

Definition _between (clause : Clause) : M jsval :=
  match object clause with
  | JRange lower upper =>
      let svo := JObj [] in
      key <- _target (as_Target (subject clause)) ;;
      ret (obj1 "range" (assign svo key (JObj [("gte", lower); ("lte", upper)])))
  | _ => throw (errors.ConvertError None)
  end.

Definition _nbetween (clause : Clause) : M jsval :=
  r <- _between clause ;; ret (not_ r).

Definition _in (clause : Clause) : M jsval :=
  match object clause with
  | JArr _ => c <- _comparison clause ;; ret (obj1 "terms" c)
  | _ => throw (errors.ConvertError None)
  end.

Definition _nin (clause : Clause) : M jsval :=
  r <- _in clause ;; ret (not_ r).

(** The part of the body of the loop of [_build] that handles a statement
    whose value is a [Clause]; the result is the fragment pushed onto
    [must].  In the [default] case [msg.unknownOp] is not defined, so the
    message is built from [undefined]. *)
Definition _build_clause (sval : Clause) : M jsval :=
  let subIsTarget := is_Target (subject sval) in
  let objIsTarget := is_Target (object sval) in
  if subIsTarget && objIsTarget then _scriptTargets sval
  else if negb subIsTarget && negb objIsTarget then lift (scriptLiterals sval)
  else
    let clause := normalizeClause sval in
    let t := type (operator clause) in
    if String.eqb t "eq" then _eq clause
    else if String.eqb t "neq" then _neq clause
    else if String.eqb t "gt" then _gt clause
    else if String.eqb t "gte" then _gte clause
    else if String.eqb t "lt" then _lt clause
    else if String.eqb t "lte" then _lte clause
    else if String.eqb t "like" then _like clause
    else if String.eqb t "nlike" then _nlike clause
    else if String.eqb t "between" then _between clause
    else if String.eqb t "nbetween" then _nbetween clause
    else if String.eqb t "in" then _in clause
    else if String.eqb t "nin" then _nin clause
    else throw (errors.ConvertError
                  (Some ("undefined" +:+ type (operator sval)))).

Definition bool_must (must : list jsval) : jsval :=
  obj1 "bool" (obj1 "must" (JArr must)).

Definition bool_should (groups : list jsval) : jsval :=
  obj1 "bool" (obj1 "should" (JArr groups)).

Section build_loop.
(** The recursive call [this._build(sval)]. *)
Variable _build : Filter → M jsval.

(** The fragment one statement pushes onto [must]. *)
Definition _build_statement (statement : Statement) : M jsval :=
  match statement_value statement with
  | VFilter sval => _build sval
  | VClause sval => _build_clause sval
  | VOther _ => throw (errors.ConvertError None)
  end.

(** The [for] loop of [_build] and the code after it. *)
Fixpoint _build_loop (stmts : list Statement) (groups must : list jsval)
    : M jsval :=
  match stmts with
  | [] =>
      if bool_decide (length groups = 0)
      then ret (bool_must must)
      else ret (bool_should (groups ++ [bool_must must]))
  | statement :: rest =>
      let '(groups, must) :=
        if String.eqb (conjunctive statement) "or"
           && bool_decide (0 < length must)
        then (groups ++ [bool_must must], [])
        else (groups, must) in
      fragment <- _build_statement statement ;;
      _build_loop rest groups (must ++ [fragment])
  end.
End build_loop.

Fixpoint _build (filter : Filter) : M jsval :=
  match filter with
  | mkFilter stmts => _build_loop _build stmts [] []
  end.

Definition build : M unit := λ this,
  match _build (_filter this) this with
  | Err e => Err e
  | Ok (v, this') =>
      Ok (tt, {| _filter := _filter this'; _strategy := _strategy this';
                 _fields := _fields this'; fields := fields this';
                 value := obj1 "filter" v |})
  end.

Fixpoint validate_loop (reqs : list string) (this : Builder) : result unit :=
  match reqs with
  | [] => Ok tt
  | req :: rest =>
      if negb (bool_decide (req ∈ _fields this))
      then Err (errors.RequiredFieldError req)
      else validate_loop rest this
  end.

Definition validate : M unit := λ this,
  lift (validate_loop (require (_strategy this)) this) this.

(** What a caller can pass as the two arguments of [convert]: an instance of
    the class the argument is tested against, or any other value. *)
Inductive FilterArg :=
| FilterInstance (f : Filter)
| FilterOther (v : jsval).

Inductive StrategyArg :=
| StrategyInstance (s : Strategy)
| StrategyOther (v : jsval).

(** [new Builder(filter, strategy)]. *)
Definition Builder_new (filter : FilterArg) (strategy : StrategyArg)
    : result Builder :=
  match filter with
  | FilterOther _ => Err (TypeError msg.argFilter)
  | FilterInstance filter =>
      match strategy with
      | StrategyOther _ => Err (TypeError msg.argStrategy)
      | StrategyInstance strategy =>
          Ok {| _filter := filter; _strategy := strategy;
                _fields := ∅; fields := []; value := JObj [] |}
      end
  end.

Module Converted.
(** The object [convert] returns. *)
Record t := { fields : list string; value : jsval }.
End Converted.

(** [convert(filter, strategy = defaultStrategy)]; [None] is an omitted
    second argument.  The default value of the parameter is used when the
    argument is omitted and when it is [undefined]. *)
Definition convert (filter : FilterArg) (strategy : option StrategyArg)
    : result Converted.t :=
  let strategy :=
    match strategy with
    | None | Some (StrategyOther JUndefined) => StrategyInstance defaultStrategy
    | Some strategy => strategy
    end in
  match Builder_new filter strategy with
  | Err e => Err e
  | Ok builder =>
      match build builder with
      | Err e => Err e
      | Ok (_, builder) =>
          match validate builder with
          | Err e => Err e
          | Ok (_, builder) =>
              Ok {| Converted.fields := fields builder;
                    Converted.value := value builder |}
          end
      end
  end.

(** * Specification-level definitions

    What the properties below are stated with: the shapes of the fragments,
    the grouping of a statement sequence, the fields a filter references,
    and the inputs the examples run on. *)

(** ** Grouping *)

(** The fragments of a statement sequence, compiled in order. *)
Fixpoint fragments (stmts : list Statement) : M (list jsval) :=
  match stmts with
  | [] => ret []
  | statement :: rest =>
      fragment <- _build_statement _build statement ;;
      others <- fragments rest ;;
      ret (fragment :: others)
  end.

(** The AND-groups of a sequence of fragments, each paired with the
    conjunction that joins it to the one before: a fragment joined by OR
    closes the open group and starts the next one.  [cur] is the open
    group. *)
Fixpoint and_groups_from (cur : list jsval) (l : list (string * jsval))
    : list (list jsval) :=
  match l with
  | [] => [cur]
  | (c, f) :: rest =>
      if String.eqb c "or" then cur :: and_groups_from [f] rest
      else and_groups_from (cur ++ [f]) rest
  end.

(** The conjunction of the first statement joins it to nothing. *)
Definition and_groups (l : list (string * jsval)) : list (list jsval) :=
  match l with
  | [] => []
  | (_, f) :: rest => and_groups_from [f] rest
  end.

(** The number of statements joined to their predecessor by OR. *)
Definition or_joined (stmts : list Statement) : nat :=
  length (filter (λ s, conjunctive s = "or") (tail stmts)).

(** The fragments [fs] of [stmts], each with the conjunction of its
    statement. *)
Definition with_conjunctions (stmts : list Statement) (fs : list jsval)
    : list (string * jsval) :=
  zip (conjunctive <$> stmts) fs.

(** The grouping of [_build_loop] on fragments already compiled. *)
Fixpoint group_loop (l : list (string * jsval)) (groups must : list jsval)
    : jsval :=
  match l with
  | [] =>
      if bool_decide (length groups = 0) then bool_must must
      else bool_should (groups ++ [bool_must must])
  | (c, f) :: rest =>
      let '(groups, must) :=
        if String.eqb c "or" && bool_decide (0 < length must)
        then (groups ++ [bool_must must], [])
        else (groups, must) in
      group_loop rest groups (must ++ [f])
  end.

(** The number of fragments joined by OR. *)
Definition count_or (l : list (string * jsval)) : nat :=
  length (filter (λ p, p.1 = "or") l).

(** [Object.keys(o)]. *)
Definition keys (o : jsval) : list string :=
  match o with
  | JObj props => props.*1
  | _ => []
  end.

(** The keys of the object under [bool]. *)
Definition bool_keys (fragment : jsval) : list string :=
  match get "bool" fragment with
  | Some b => keys b
  | None => []
  end.

(** ** Fragments *)

(** Resolve a target and build a fragment around its canonical key. *)
Definition with_key (t : Target) (f : string → jsval) : M jsval :=
  key <- _target t ;; ret (f key).

(** The clause [s op o]. *)
Definition clause_of (s : jsval) (op : string) (o : jsval) : Clause :=
  {| subject := s; operator := {| type := op |}; object := o |}.

(** The documents below are written out in full, property by property. *)

(** The object that holds [v] under the canonical key of a field.  Under
    the key [__proto__] an object literal given one property by assignment
    has no property of its own. *)
Definition keyed (key : string) (v : jsval) : jsval :=
  if String.eqb key "__proto__" then JObj [] else JObj [(key, v)].

(** [{ exists: { field: key } }]. *)
Definition exists_ (key : string) : jsval :=
  JObj [("exists", JObj [("field", JStr key)])].

(** [{ term: { [key]: o } }]. *)
Definition term_ (key : string) (o : jsval) : jsval :=
  JObj [("term", keyed key o)].

(** [{ range: { [key]: { [bound]: o } } }]. *)
Definition range_ (key bound : string) (o : jsval) : jsval :=
  JObj [("range", keyed key (JObj [(bound, o)]))].

(** [{ bool: { must_not: f } }]. *)
Definition must_not_ (f : jsval) : jsval :=
  JObj [("bool", JObj [("must_not", f)])].

(** [{ bool: { must: fs } }]. *)
Definition must_ (fs : list jsval) : jsval :=
  JObj [("bool", JObj [("must", JArr fs)])].

(** [{ bool: { should: [{ bool: { must: g } }, ...] } }], one member for
    each group [g]. *)
Definition should_ (groups : list (list jsval)) : jsval :=
  JObj [("bool", JObj [("should", JArr (must_ <$> groups))])].


(** The operator of a clause read from right to left. *)
Definition inverted (op : string) : string :=
  if String.eqb op "gt" then "lt"
  else if String.eqb op "gte" then "lte"
  else if String.eqb op "lt" then "gt"
  else if String.eqb op "lte" then "gte"
  else op.

(** Modelled from the spec: [Like.prototype.toRegexString], a method of the
    spleen package, whose source is not part of this repository.  The
    rendering contract of the spec: [*] becomes [.*], [_] becomes [.{1}],
    every other character is passed through, and the result stands between
    the anchors [^] and [$]. *)
Fixpoint Like_render (pattern : string) : string :=
  match pattern with
  | EmptyString => EmptyString
  | String c rest =>
      (if Ascii.eqb c "*" then ".*"
       else if Ascii.eqb c "_" then ".{1}"
       else String c EmptyString) +:+ Like_render rest
  end.

(** Modelled from the spec: the anchors around the rendering, as the README
    has it ("begin with ^ and $"). *)
Definition Like_toRegexString (pattern : string) : string :=
  "^" +:+ Like_render pattern +:+ "$".

(** [new Like(pattern)]. *)
Definition Like_new (pattern : string) : jsval :=
  JLike (JStr pattern) (Like_toRegexString pattern).

(** [{ regexp: { [key]: regex } }]. *)
Definition regexp_ (key regex : string) : jsval :=
  JObj [("regexp", keyed key (JStr regex))].

(** The operators [scriptOperator] has a symbol for. *)
Definition script_operators : list string :=
  ["eq"; "neq"; "gt"; "gte"; "lt"; "lte"].

(** The fragments of [scriptLiterals] and [_scriptTargets]. *)
Definition script_literals_ (sym : string) (s o : jsval) : jsval :=
  obj1 "script"
    (obj1 "script"
       (JObj [("source", JStr ("params.subject " +:+ sym +:+ " params.object"));
              ("params", JObj [("subject", s); ("object", o)])])).

Definition script_targets_ (sym s o : string) : jsval :=
  obj1 "script"
    (obj1 "script"
       (JStr ("doc['" +:+ s +:+ "'].value " +:+ sym
                +:+ " doc['" +:+ o +:+ "'].value"))).

(** ** Referenced fields *)

(** The fields of the targets a clause resolves, in the order it resolves
    them: subject before object. *)
Definition clause_targets (c : Clause) : list string :=
  match subject c, object c with
  | JTarget s, JTarget o => [field s; field o]
  | JTarget s, _ => [field s]
  | _, JTarget o => [field o]
  | _, _ => []
  end.

(** The fields of the targets in subject or object position anywhere in a
    filter, in statement order, sub-filters included. *)
Fixpoint referenced (f : Filter) : list string :=
  match f with
  | mkFilter stmts =>
      flat_map
        (λ s, match statement_value s with
              | VFilter sub => referenced sub
              | VClause c => clause_targets c
              | VOther _ => []
              end)
        stmts
  end.

(** The same for one statement. *)
Definition statement_targets (s : Statement) : list string :=
  match statement_value s with
  | VFilter sub => referenced sub
  | VClause c => clause_targets c
  | VOther _ => []
  end.

(** The builder after the fields of [l] have been registered in order. *)
Definition registered (l : list string) (this : Builder) : Builder :=
  foldl (λ b f, register f b) this l.

(** A method walks [l], under strategies of which [S] is known and with
    errors of the kinds [names], when a successful run leaves the builder
    with the fields of [l] registered in order and nothing else changed, and
    a run that fails under such a strategy does so with an error of one of
    those kinds. *)
Definition walks (S : Strategy → Prop) (names : list string) {A} (m : M A)
    (l : list string) : Prop :=
  ∀ this,
    match m this with
    | Ok (_, this') => this' = registered l this
    | Err e => S (_strategy this) → name e ∈ names
    end.

(** The kinds of error the walk can end with. *)
Definition walk_errors : list string :=
  ["ConvertError"; "DeniedFieldError"; "InvalidTargetError";
   "NonallowedFieldError"].

(** A strategy that restricts no field. *)
Definition unrestricted (s : Strategy) : Prop :=
  size (allow s) = 0 ∧ size (deny s) = 0.

(** The elements of a list in the order of their first occurrence. *)
Fixpoint first_occurrences (l : list string) : list string :=
  match l with
  | [] => []
  | x :: rest => x :: filter (λ y, y ≠ x) (first_occurrences rest)
  end.

(** [this._fields] and [this.fields] hold the same fields. *)
Definition synced (this : Builder) : Prop :=
  ∀ f, f ∈ _fields this ↔ f ∈ fields this.

(** The builder [new Builder(filter, strategy)] starts from. *)
Definition start (filter : Filter) (strategy : Strategy) : Builder :=
  {| _filter := filter; _strategy := strategy;
     _fields := ∅; fields := []; value := JObj [] |}.

(** ** Strategy settings *)

(** [typeof v === 'string']. *)
Definition is_string (v : jsval) : bool :=
  match v with JStr _ => true | _ => false end.

(** Both [allow] and [deny] are arrays with at least one member. *)
Definition both_nonempty (s : Settings.t) : Prop :=
  ∃ a d, Settings.allow s = JArr a ∧ Settings.deny s = JArr d
         ∧ a ≠ [] ∧ d ≠ [].

(** [allow] or [deny] is an array with a member that is not a string. *)
Definition nonstring_member (s : Settings.t) : Prop :=
  ∃ items v, (Settings.allow s = JArr items ∨ Settings.deny s = JArr items)
             ∧ v ∈ items ∧ is_string v = false.

(** ** Errors *)

(** The errors of the conversion, written out property by property. *)
Definition unconvertible : error :=
  {| name := "ConvertError";
     message := "Invalid filter.  Unable to convert.";
     data := NoData |}.

Definition denied (f : string) : error :=
  {| name := "DeniedFieldError";
     message := "Black listed field encountered: " +:+ f;
     data := FieldData f |}.

Definition nonallowed (f : string) : error :=
  {| name := "NonallowedFieldError";
     message := "Non-white listed field encountered: " +:+ f;
     data := FieldData f |}.

Definition invalid_target (pointer : string) (segs : list segment) : error :=
  {| name := "InvalidTargetError";
     message := "Invalid target encountered: " +:+ pointer;
     data := PathData segs |}.

Definition missing_required (f : string) : error :=
  {| name := "RequiredFieldError";
     message := "Missing required field: " +:+ f;
     data := FieldData f |}.

(** ** Canonical keys *)

(** [segments.join('.')]. *)
Definition join_dot (segs : list string) : string :=
  match segs with
  | [] => ""
  | s :: rest => foldl (λ acc x, acc +:+ "." +:+ x) s rest
  end.

(** The characters that are illegal in a segment. *)
Definition illegal_characters : list ascii :=
  ascii_of_nat 34
    :: ["{"; "}"; ";"; ","; "["; "]"; ":"; "("; ")"; "'"; "*"; ">"; "#"; "~";
        "@"; "&"; "%"; "?"; "`"]%char.

(** A string is illegal as a segment when it holds one of those characters
    or two hyphens in a row. *)
Definition illegal (s : string) : Prop :=
  (∃ c, c ∈ list_ascii_of_string s ∧ c ∈ illegal_characters)
  ∨ ∃ p q, s = p +:+ "--" +:+ q.

(** A segment as a string: a string segment is one already, a number
    segment is the string its [toString()] gives. *)
Definition stringified (seg : segment) : string :=
  match seg with
  | SegStr s => s
  | SegNum toString => toString
  end.

(** A path whose first segment, when another follows it, is not the empty
    string.  The paths of parsed targets are of this kind: the pointer
    [//a], whose path would be [["", "a"]], is not one spleen parses. *)
Definition well_formed (segs : list segment) : Prop :=
  match segs with
  | seg :: _ :: _ => stringified seg ≠ ""
  | _ => True
  end.

(** The decimal numeral of a natural number. *)
Definition decimal (n : N) : string := NilZero.string_of_uint (N.to_uint n).

(** A segment the [invalidTarget] expression does not match. *)
Definition legal (seg : segment) : Prop :=
  invalidTarget_test (stringified seg) = false.

(** The key [_target_path] builds when no segment is illegal. *)
Definition path_key (val : string) (segs : list segment) : string :=
  foldl (λ val seg,
           (if bool_decide (0 < String.length val) then val +:+ "." else val)
             +:+ stringified seg)
    val segs.

(** ** Example inputs *)

Module Examples.

(** The target of a JSON pointer, with the path it parses to. *)
Definition target (pointer : string) (segs : list string) : Target :=
  {| field := pointer; path := SegStr <$> segs; toJsonPointer := pointer |}.

Definition foo : Target := target "/foo" ["foo"].
Definition bar : Target := target "/bar" ["bar"].
Definition foo_bar : Target := target "/foo/bar" ["foo"; "bar"].
(** A target with a path that is not [well_formed]. *)
Definition slash_a : Target := target "//a" [""; "a"].

Definition clause (conj : string) (s : jsval) (op : string) (o : jsval)
    : Statement :=
  mkStatement conj (VClause (clause_of s op o)).

(** A fresh builder under the default strategy. *)
Definition this0 : Builder := start (mkFilter []) defaultStrategy.

End Examples.

(** [/foo eq 1 and 2 lt /bar or (/bar gt /foo and /baz in [3])]. *)
Definition fields_example : Filter :=
  mkFilter
    [Examples.clause "" (JTarget Examples.foo) "eq" (JNum 1);
     Examples.clause "and" (JNum 2) "lt" (JTarget Examples.bar);
     mkStatement "or"
       (VFilter
          (mkFilter
             [Examples.clause "" (JTarget Examples.bar) "gt"
                (JTarget Examples.foo);
              Examples.clause "and"
                (JTarget (Examples.target "/baz" ["baz"])) "in"
                (JArr [JNum 3])]))].

(** ** Further specification-level definitions *)

(** The twelve operators the dispatch of [_build] knows. *)
Definition operators : list string :=
  ["eq"; "neq"; "gt"; "gte"; "lt"; "lte"; "like"; "nlike"; "between";
   "nbetween"; "in"; "nin"].

(** The targets a clause resolves, subject before object. *)
Definition clause_target_list (c : Clause) : list Target :=
  match subject c, object c with
  | JTarget s, JTarget o => [s; o]
  | JTarget s, _ => [s]
  | _, JTarget o => [o]
  | _, _ => []
  end.

(** The targets in subject or object position anywhere in a filter, in
    statement order, sub-filters included. *)
Fixpoint referenced_targets (f : Filter) : list Target :=
  match f with
  | mkFilter stmts =>
      flat_map
        (λ s, match statement_value s with
              | VFilter sub => referenced_targets sub
              | VClause c => clause_target_list c
              | VOther _ => []
              end)
        stmts
  end.

(** The same for one statement. *)
Definition statement_target_list (s : Statement) : list Target :=
  match statement_value s with
  | VFilter sub => referenced_targets sub
  | VClause c => clause_target_list c
  | VOther _ => []
  end.

(** What stops the resolution of a target under a strategy, if anything:
    the checks of [_target] in the order it makes them. *)
Definition target_check (s : Strategy) (t : Target) : option error :=
  if bool_decide (0 < size (allow s)) && negb (bool_decide (field t ∈ allow s))
  then Some (errors.NonallowedFieldError (field t))
  else if bool_decide (0 < size (deny s)) && bool_decide (field t ∈ deny s)
  then Some (errors.DeniedFieldError (field t))
  else if bool_decide (Forall legal (path t)) then None
  else Some (errors.InvalidTargetError t).

(** A method resolves the targets [ts] when a successful run has resolved
    each of them, none being stopped, and leaves the builder with their
    fields registered in order, and a run that fails does so with a
    [ConvertError] or with what stops one of them. *)
Definition resolves {A} (m : M A) (ts : list Target) : Prop :=
  ∀ this,
    match m this with
    | Ok (_, this') =>
        this' = registered (field <$> ts) this
        ∧ Forall (λ t, target_check (_strategy this) t = None) ts
    | Err e =>
        name e = "ConvertError"
        ∨ ∃ t, t ∈ ts ∧ target_check (_strategy this) t = Some e
    end.

(** A method agrees with itself when two runs that succeed, from whatever
    builders, return the same value. *)
Definition agrees {A} (m : M A) : Prop :=
  ∀ this1 this2 a1 a2 this1' this2',
    m this1 = Ok (a1, this1') → m this2 = Ok (a2, this2') → a1 = a2.

(** The strings [createTargetSet] collects from a value: none when it is
    [null] or [undefined], the members of an array of strings, and nothing
    to collect from anything else. *)
Definition string_members (value : jsval) : option (list string) :=
  match value with
  | JUndefined | JNull => Some []
  | JArr items =>
      mapM (λ v, match v with JStr s => Some s | _ => None end) items
  | _ => None
  end.

(** Whether a strategy lets a field through: the contract of the allow and
    deny sets. *)
Definition permitted (s : Strategy) (f : string) : Prop :=
  (size (allow s) = 0 ∨ f ∈ allow s) ∧ f ∉ deny s.

(** The query primitives a clause compiles to. *)
Definition primitives : list string :=
  ["term"; "terms"; "range"; "regexp"; "exists"; "script"].

(** An object with one key, which names a primitive. *)
Definition is_primitive (f : jsval) : Prop :=
  ∃ k body, k ∈ primitives ∧ f = obj1 k body.

(** The documents of the output grammar: a primitive, the negation of a
    primitive, a conjunction of documents, or a disjunction of
    conjunctions of documents. *)
#[warnings="-register-all"]
Inductive fragment_ok : jsval → Prop :=
| ok_primitive f : is_primitive f → fragment_ok f
| ok_not f : is_primitive f → fragment_ok (not_ f)
| ok_must fs : Forall fragment_ok fs → fragment_ok (bool_must fs)
| ok_should groups :
    Forall (Forall fragment_ok) groups →
    fragment_ok (bool_should (bool_must <$> groups)).

(** Every value a method returns satisfies [P]. *)
Definition yields {A} (P : A → Prop) (m : M A) : Prop :=
  ∀ this a this', m this = Ok (a, this') → P a.

(** The causes an error of a conversion can have.  It is a [ConvertError];
    or the error of a target in subject or object position somewhere in
    the filter: [NonallowedFieldError] with its field, which a non-empty
    allow set lacks, [DeniedFieldError] with its field, which the deny set
    holds, or [InvalidTargetError] with the pointer and the path of that
    target, whose path has an illegal segment; or the [RequiredFieldError]
    of a required field that no target of the filter refers to.  The errors
    are the records [nonallowed], [denied], [invalid_target] and
    [missing_required] above: name, message and data. *)
Definition caused_by (filter : Filter) (strategy : Strategy) (e : error)
    : Prop :=
  name e = "ConvertError"
  ∨ (∃ t, t ∈ referenced_targets filter
          ∧ e = nonallowed (field t)
          ∧ 0 < size (allow strategy) ∧ field t ∉ allow strategy)
  ∨ (∃ t, t ∈ referenced_targets filter
          ∧ e = denied (field t)
          ∧ field t ∈ deny strategy)
  ∨ (∃ t, t ∈ referenced_targets filter
          ∧ e = invalid_target (toJsonPointer t) (path t)
          ∧ ¬ Forall legal (path t))
  ∨ (∃ req, req ∈ require strategy
            ∧ (req ∉ referenced filter)
            ∧ e = missing_required req).

(** ** Further example inputs *)

Module Inputs.

(** [new Strategy({ allow: ['/foo', '/bar'], require: ['/foo'] })]. *)
Definition allowing : Strategy :=
  {| allow := {["/foo"; "/bar"]}; deny := ∅; require := ["/foo"] |}.

(** [new Strategy({ deny: ['/foo'] })]. *)
Definition denying : Strategy :=
  {| allow := ∅; deny := {["/foo"]}; require := [] |}.

(** [new Strategy({ allow: ['/foo'], require: ['/bar'] })]. *)
Definition blocked : Strategy :=
  {| allow := {["/foo"]}; deny := ∅; require := ["/bar"] |}.

(** The target of the pointer [/__proto__]. *)
Definition proto : Target := Examples.target "/__proto__" ["__proto__"].

(** [/foo eq 42 and /bar gt 0]. *)
Definition foo_and_bar : Filter :=
  mkFilter [Examples.clause "" (JTarget Examples.foo) "eq" (JNum 42);
            Examples.clause "and" (JTarget Examples.bar) "gt" (JNum 0)].

(** [/foo eq 42 or /bar gt 0]. *)
Definition foo_or_bar : Filter :=
  mkFilter [Examples.clause "" (JTarget Examples.foo) "eq" (JNum 42);
            Examples.clause "or" (JTarget Examples.bar) "gt" (JNum 0)].

(** [/foo eq 42 and /bar gt 0] with the value of its second statement
    replaced by a string. *)
Definition corrupted_before : list Statement :=
  [Examples.clause "" (JTarget Examples.foo) "eq" (JNum 42)].
Definition corrupted : Statement := mkStatement "and" (VOther (JStr "bork")).
Definition corrupted_after : list Statement :=
  [Examples.clause "and" (JTarget Examples.bar) "gt" (JNum 0)].

End Inputs.

(** * Properties *)

(** ** The tree compiler *)

Lemma fragments_length stmts : ∀ this fs this',
  fragments stmts this = Ok (fs, this') → length fs = length stmts.
Proof.
  induction stmts as [|s rest IH]; intros this fs this'; simpl.
  - unfold ret. intros [= <- _]. reflexivity.
  - unfold bind at 1.
    destruct (_build_statement _build s this) as [[f this1]|e]; [|discriminate].
    unfold bind at 1.
    destruct (fragments rest this1) as [[fs1 this2]|e] eqn:E; [|discriminate].
    unfold ret. intros [= <- _]. simpl. f_equal. eapply IH, E.
Qed.

(** The loop compiles the statements in order and groups the fragments. *)
Lemma _build_loop_fragments stmts : ∀ groups must this,
  _build_loop _build stmts groups must this =
    match fragments stmts this with
    | Err e => Err e
    | Ok (fs, this') =>
        Ok (group_loop (with_conjunctions stmts fs) groups must, this')
    end.
Proof.
  induction stmts as [|s rest IH]; intros groups must this.
  - simpl. unfold ret. destruct (bool_decide _); reflexivity.
  - cbn [_build_loop fragments]. unfold bind, ret.
    destruct (String.eqb (conjunctive s) "or" && bool_decide (0 < length must))
      eqn:Hor;
      (destruct (_build_statement _build s this) as [[f this1]|e];
         [|reflexivity]);
      rewrite IH;
      (destruct (fragments rest this1) as [[fs this2]|e]; [|reflexivity]);
      unfold with_conjunctions; cbn; rewrite Hor; reflexivity.
Qed.

Lemma and_groups_from_length l : ∀ cur,
  length (and_groups_from cur l) = S (count_or l).
Proof.
  unfold count_or.
  induction l as [|[c f] rest IH]; intros cur; [reflexivity|].
  cbn [and_groups_from]. rewrite filter_cons. cbn [fst].
  destruct (String.eqb_spec c "or") as [->|Hne].
  - rewrite decide_True by reflexivity. simpl. by rewrite IH.
  - rewrite decide_False by assumption. apply IH.
Qed.

Lemma and_groups_from_concat l : ∀ cur,
  concat (and_groups_from cur l) = cur ++ l.*2.
Proof.
  induction l as [|[c f] rest IH]; intros cur; cbn [and_groups_from].
  - simpl. by rewrite !app_nil_r.
  - destruct (String.eqb c "or").
    + cbn [concat]. by rewrite IH.
    + rewrite IH. by rewrite <- app_assoc.
Qed.

Lemma and_groups_from_nonempty l : ∀ cur,
  cur ≠ [] → Forall (λ g, g ≠ []) (and_groups_from cur l).
Proof.
  induction l as [|[c f] rest IH]; intros cur Hcur; cbn [and_groups_from].
  - by constructor.
  - destruct (String.eqb c "or").
    + constructor; [assumption|]. by apply IH.
    + apply IH. by destruct cur.
Qed.

(** With an open group that is not empty, the loop yields the groups closed
    so far followed by the AND-groups of what remains. *)
Lemma group_loop_and_groups l : ∀ groups must,
  must ≠ [] →
  group_loop l groups must =
    if bool_decide (length groups = 0) && bool_decide (count_or l = 0)
    then bool_must (must ++ l.*2)
    else bool_should (groups ++ (bool_must <$> and_groups_from must l)).
Proof.
  unfold count_or.
  induction l as [|[c f] rest IH]; intros groups must Hmust.
  - cbn. rewrite app_nil_r. rewrite andb_true_r.
    destruct (bool_decide _); reflexivity.
  - cbn [group_loop and_groups_from]. rewrite filter_cons. cbn [fst].
    assert (bool_decide (0 < length must) = true) as ->.
    { apply bool_decide_eq_true. destruct must; [done|simpl; lia]. }
    rewrite andb_true_r.
    destruct (String.eqb_spec c "or") as [->|Hne].
    + rewrite decide_True by reflexivity.
      rewrite IH by done.
      rewrite (bool_decide_eq_false_2 (length (groups ++ _) = 0))
        by (rewrite length_app; simpl; lia).
      rewrite (bool_decide_eq_false_2 (length (_ :: _) = 0)) by done.
      rewrite andb_false_r. cbn. by rewrite <- app_assoc.
    + rewrite decide_False by assumption.
      rewrite IH by (by destruct must).
      cbn. rewrite <- app_assoc. reflexivity.
Qed.

Lemma count_or_with_conjunctions stmts : ∀ fs,
  length fs = length stmts →
  count_or (with_conjunctions stmts fs) =
    length (filter (λ s, conjunctive s = "or") stmts).
Proof.
  unfold count_or, with_conjunctions.
  induction stmts as [|s rest IH]; intros [|f fs] Hlen; try done.
  cbn [fmap list_fmap zip zip_with]. rewrite !filter_cons. cbn [fst].
  injection Hlen as Hlen.
  destruct (decide (conjunctive s = "or")); simpl; by rewrite (IH fs Hlen).
Qed.

Lemma with_conjunctions_snd stmts : ∀ fs,
  length fs = length stmts → (with_conjunctions stmts fs).*2 = fs.
Proof.
  unfold with_conjunctions.
  induction stmts as [|s rest IH]; intros [|f fs] Hlen; try done.
  injection Hlen as Hlen. cbn. f_equal. by apply IH.
Qed.

(** C1.  [_build] compiles the statements in order and, when that succeeds
    with fragments [fs], groups them into the AND-groups delimited by the
    statements joined by OR.  With no such statement the result is
    [{ bool: { must: fs } }], with [must] the only key; otherwise it is
    [{ bool: { should: [...] } }], with [should] the only key, one
    [{ bool: { must: g } }] entry per AND-group [g], and one more entry than
    there are statements joined by OR.  The groups are not empty and their
    concatenation is [fs].  A filter of one statement yields
    [{ bool: { must: [f] } }] for the fragment [f] of that statement.  The
    conjunction of the first statement, which joins it to nothing, is not
    looked at. *)
Theorem build_groups_and_within_or (stmts : list Statement) (this : Builder) :
  match fragments stmts this with
  | Err e => _build (mkFilter stmts) this = Err e
  | Ok (fs, this') =>
      let groups := and_groups (with_conjunctions stmts fs) in
      concat groups = fs
      ∧ Forall (λ g, g ≠ []) groups
      ∧ length groups = match stmts with [] => 0 | _ => S (or_joined stmts) end
      ∧ _build (mkFilter stmts) this =
          Ok (match or_joined stmts with
              | 0 => JObj [("bool", JObj [("must", JArr fs)])]
              | S _ =>
                  JObj [("bool",
                          JObj [("should",
                                  JArr ((λ g, JObj [("bool",
                                                      JObj [("must", JArr g)])])
                                          <$> groups))])]
              end, this')
  end
  ∧ (∀ fs, bool_keys (must_ fs) = ["must"])
  ∧ (∀ groups, bool_keys (should_ groups) = ["should"])
  ∧ ∀ s, _build (mkFilter [s]) this =
           match _build_statement _build s this with
           | Ok (f, this') =>
               Ok (JObj [("bool", JObj [("must", JArr [f])])], this')
           | Err e => Err e
           end.
Proof.
  split; [|split; [done|split; [done|]]].
  - cbn [_build]. rewrite _build_loop_fragments.
    destruct (fragments stmts this) as [[fs this']|e] eqn:Hfs; [|reflexivity].
    apply fragments_length in Hfs.
    destruct stmts as [|s rest]; destruct fs as [|f fs]; try done.
    injection Hfs as Hlen.
    unfold or_joined. cbn [tail with_conjunctions fmap list_fmap zip zip_with].
    fold (with_conjunctions rest fs). cbn [and_groups].
    rewrite and_groups_from_concat, and_groups_from_length.
    rewrite with_conjunctions_snd, count_or_with_conjunctions by done.
    repeat split.
    { apply and_groups_from_nonempty. done. }
    cbn [group_loop length]. rewrite andb_false_r.
    rewrite group_loop_and_groups by done.
    rewrite with_conjunctions_snd, count_or_with_conjunctions by done.
    destruct (length (filter _ rest)); cbn; done.
  - intros s. cbn [_build _build_loop]. unfold bind, ret.
    rewrite andb_false_r.
    destruct (_build_statement _build s this) as [[f this1]|e]; reflexivity.
Qed.

(** ** The clause compiler *)

Arguments _target : simpl never.

Ltac use_shape_hyps :=
  repeat match goal with
         | H : is_Target _ = _ |- _ => rewrite !H
         | H : is_null _ = _ |- _ => rewrite !H
         end.

(** Decide an equation between two runs of clause methods on the same
    builder: pick the branch of the dispatch, unfold the methods, and case on
    the outcome of each target resolution. *)
Ltac clause_eq :=
  intros;
  unfold _build_clause, normalizeClause, clause_of; cbn; use_shape_hyps; cbn;
  unfold _scriptTargets, _eq, _neq, _gt, _gte, _lt, _lte, _like, _nlike,
    _between, _nbetween, _in, _nin; cbn; use_shape_hyps; cbn;
  unfold _eq, _exists, _comparison, _range, with_key; cbn; use_shape_hyps;
  unfold _exists, _comparison, bind, ret, lift, throw; cbn;
  repeat match goal with
         | |- context [_target ?t ?this] =>
             destruct (_target t this) as [[? ?]|?]; cbn
         end;
  try reflexivity.

(** What [keyed] holds: the value under the key, and nothing under
    [__proto__]. *)
Lemma keyed_cases :
  (∀ key v, key ≠ "__proto__" → keyed key v = JObj [(key, v)])
  ∧ (∀ v, keyed "__proto__" v = JObj []).
Proof.
  split; [|done]. intros key v Hkey. unfold keyed.
  by destruct (String.eqb_spec key "__proto__").
Qed.

(** A clause whose subject is a target [t] and whose object is [null]
    compiles to [{ exists: { field: key } }], [key] the canonical key of
    [t], for [neq], [gt] and [gte], and to
    [{ bool: { must_not: { exists: { field: key } } } }] for [eq], [lt] and
    [lte]; with [null] on the left and the target on the right the operands
    are swapped first, so the polarities of [gt]/[gte] and [lt]/[lte] trade
    places.  Neither shape has a [term] or [range] key.  With an object [o]
    that is neither [null] nor a target the same operators give
    [{ term: { [key]: o } }] ([eq]), that under [must_not] ([neq]), or
    [{ range: { [key]: { [op]: o } } }]; when the key is [__proto__] the
    object under [term] and [range] is empty. *)
Theorem null_comparisons_emit_exists (t : Target) (o : jsval) (this : Builder)
    (Hlit : is_Target o = false) (Hnonnull : is_null o = false) :
  let c op v := clause_of (JTarget t) op v in
  let c' v op := clause_of v op (JTarget t) in
  let negated key :=
    JObj [("bool",
            JObj [("must_not", JObj [("exists", JObj [("field", JStr key)])])])]
  in
  (_build_clause (c "eq" JNull) this = with_key t negated this
   ∧ _build_clause (c "neq" JNull) this = with_key t exists_ this
   ∧ _build_clause (c "gt" JNull) this = with_key t exists_ this
   ∧ _build_clause (c "gte" JNull) this = with_key t exists_ this
   ∧ _build_clause (c "lt" JNull) this = with_key t negated this
   ∧ _build_clause (c "lte" JNull) this = with_key t negated this)
  ∧ (_build_clause (c' JNull "eq") this = with_key t negated this
     ∧ _build_clause (c' JNull "neq") this = with_key t exists_ this
     ∧ _build_clause (c' JNull "gt") this = with_key t negated this
     ∧ _build_clause (c' JNull "gte") this = with_key t negated this
     ∧ _build_clause (c' JNull "lt") this = with_key t exists_ this
     ∧ _build_clause (c' JNull "lte") this = with_key t exists_ this)
  ∧ (∀ key,
       has_key "term" (exists_ key) = false
       ∧ has_key "range" (exists_ key) = false
       ∧ has_key "term" (negated key) = false
       ∧ has_key "range" (negated key) = false)
  ∧ (_build_clause (c "eq" o) this = with_key t (λ key, term_ key o) this
     ∧ _build_clause (c "neq" o) this =
         with_key t (λ key, must_not_ (term_ key o)) this
     ∧ _build_clause (c "gt" o) this =
         with_key t (λ key, range_ key "gt" o) this
     ∧ _build_clause (c "gte" o) this =
         with_key t (λ key, range_ key "gte" o) this
     ∧ _build_clause (c "lt" o) this =
         with_key t (λ key, range_ key "lt" o) this
     ∧ _build_clause (c "lte" o) this =
         with_key t (λ key, range_ key "lte" o) this).
Proof.
  intros c c' negated. subst c c' negated.
  repeat split; clause_eq.
Qed.

(** C2, at the target [/__proto__].  The clause methods put the operand
    into the fragment by assigning to the canonical key of the target on a
    fresh object, and an assignment to [__proto__] creates no property: for
    [/__proto__ eq 42] the [term] of the converted document is empty, and for
    [/__proto__ gt 5] the [range] is empty, with no bound [gt] and no operand
    [5], where [/foo gt 5] gives [{ range: { foo: { gt: 5 } } }].  The
    comparisons with [null], which hold the key as a value, are as for any
    other target. *)
Theorem proto_key_comparison_is_lost :
  let run t op o :=
    convert
      (FilterInstance (mkFilter [Examples.clause "" (JTarget t) op o])) None in
  let document fragment :=
    JObj [("filter", JObj [("bool", JObj [("must", JArr [fragment])])])] in
  path Inputs.proto = [SegStr "__proto__"]
  ∧ run Inputs.proto "eq" (JNum 42) =
      Ok {| Converted.fields := ["/__proto__"];
            Converted.value := document (JObj [("term", JObj [])]) |}
  ∧ run Inputs.proto "gt" (JNum 5) =
      Ok {| Converted.fields := ["/__proto__"];
            Converted.value := document (JObj [("range", JObj [])]) |}
  ∧ run Examples.foo "gt" (JNum 5) =
      Ok {| Converted.fields := ["/foo"];
            Converted.value :=
              document
                (JObj [("range", JObj [("foo", JObj [("gt", JNum 5)])])]) |}
  ∧ run Inputs.proto "gt" JNull =
      Ok {| Converted.fields := ["/__proto__"];
            Converted.value :=
              document
                (JObj [("exists", JObj [("field", JStr "__proto__")])]) |}
  ∧ run Inputs.proto "eq" JNull =
      Ok {| Converted.fields := ["/__proto__"];
            Converted.value :=
              document
                (JObj [("bool",
                         JObj [("must_not",
                                 JObj [("exists",
                                         JObj [("field",
                                                 JStr "__proto__")])])])]) |}.
Proof. cbn zeta. split_and!; vm_compute; reflexivity. Qed.

(** Case analysis on the first string comparison of the goal. *)
Ltac case_eqb :=
  match goal with
  | |- context [String.eqb ?a ?b] => destruct (String.eqb_spec a b)
  end.

Lemma inverted_symmetric op :
  op ∉ ["gt"; "gte"; "lt"; "lte"] → inverted op = op.
Proof.
  intros Hop. unfold inverted.
  repeat (case_eqb; [exfalso; apply Hop; subst; set_solver|]).
  reflexivity.
Qed.

Lemma inverted_involutive op : inverted (inverted op) = op.
Proof.
  destruct (decide (op ∈ ["gt"; "gte"; "lt"; "lte"])) as [Hop|Hop].
  - set_unfold. destruct_or!; subst; (reflexivity || contradiction).
  - rewrite (inverted_symmetric op Hop). exact (inverted_symmetric op Hop).
Qed.

Lemma normalizeClause_swap (t : Target) (lit : jsval) (op : string) :
  normalizeClause (clause_of lit op (JTarget t)) =
    clause_of (JTarget t) (inverted op) lit.
Proof.
  unfold normalizeClause, clause_of, inverted. cbn. f_equal.
  repeat (destruct (String.eqb op _); [reflexivity|]). reflexivity.
Qed.

Lemma normalizeClause_keep (t : Target) (lit : jsval) (op : string) :
  is_Target lit = false →
  normalizeClause (clause_of (JTarget t) op lit) =
    clause_of (JTarget t) op lit.
Proof. intros Hlit. unfold normalizeClause. cbn. by rewrite Hlit. Qed.

(** After normalization the subject of a clause with exactly one target side
    is that target. *)
Lemma normalizeClause_subject (sval : Clause) :
  xorb (is_Target (subject sval)) (is_Target (object sval)) = true →
  is_Target (subject (normalizeClause sval)) = true.
Proof.
  unfold normalizeClause.
  destruct (is_Target (object sval)) eqn:Ho; cbn; [done|].
  by rewrite xorb_false_r.
Qed.

(** A clause with a target [t] on the right and a non-target [lit] on the
    left is normalized to the clause with [t] as subject, [lit] as object
    and the operator inverted: [gt] and [lt] trade places, as do [gte] and
    [lte], and every other operator ([eq], [neq], [between], [in], ...) is
    kept; inverting twice gives the operator back.  So the clause compiles
    exactly as the clause written with the target first and the inverted
    operator, and for the four ordering operators with a non-null [lit] that
    is [{ range: { [key]: { [bound]: lit } } }], [bound] the inverted
    operator, the object under [range] being empty when the key is
    [__proto__].  A clause that already has the target first is left as it
    is. *)
Theorem operand_swap_inverts_ordering (t : Target) (lit : jsval)
    (this : Builder)
    (Hlit : is_Target lit = false) (Hnonnull : is_null lit = false) :
  (∀ op, normalizeClause (clause_of lit op (JTarget t)) =
           clause_of (JTarget t) (inverted op) lit)
  ∧ (∀ op, normalizeClause (clause_of (JTarget t) op lit) =
             clause_of (JTarget t) op lit)
  ∧ (inverted "gt" = "lt" ∧ inverted "lt" = "gt"
     ∧ inverted "gte" = "lte" ∧ inverted "lte" = "gte")
  ∧ (∀ op, op ∉ ["gt"; "gte"; "lt"; "lte"] → inverted op = op)
  ∧ (∀ op, inverted (inverted op) = op)
  ∧ (∀ op, _build_clause (clause_of lit op (JTarget t)) this =
             _build_clause (clause_of (JTarget t) (inverted op) lit) this)
  ∧ (_build_clause (clause_of lit "gt" (JTarget t)) this =
       with_key t (λ key, range_ key "lt" lit) this
     ∧ _build_clause (clause_of lit "gte" (JTarget t)) this =
         with_key t (λ key, range_ key "lte" lit) this
     ∧ _build_clause (clause_of lit "lt" (JTarget t)) this =
         with_key t (λ key, range_ key "gt" lit) this
     ∧ _build_clause (clause_of lit "lte" (JTarget t)) this =
         with_key t (λ key, range_ key "gte" lit) this)
  ∧ (_build_clause (clause_of (JTarget t) "lt" lit) this =
       with_key t (λ key, range_ key "lt" lit) this
     ∧ _build_clause (clause_of (JTarget t) "lte" lit) this =
         with_key t (λ key, range_ key "lte" lit) this
     ∧ _build_clause (clause_of (JTarget t) "gt" lit) this =
         with_key t (λ key, range_ key "gt" lit) this
     ∧ _build_clause (clause_of (JTarget t) "gte" lit) this =
         with_key t (λ key, range_ key "gte" lit) this).
Proof.
  split; [intros; apply normalizeClause_swap|].
  split; [intros; by apply normalizeClause_keep|].
  split; [done|].
  split; [apply inverted_symmetric|].
  split; [apply inverted_involutive|].
  split.
  - intros op. unfold _build_clause.
    rewrite normalizeClause_swap, normalizeClause_keep by done.
    cbn. rewrite Hlit. cbn.
    repeat (case_eqb; [reflexivity|]).
    rewrite inverted_symmetric; [reflexivity|].
    intros Hop. set_unfold.
    destruct_or!; subst; try contradiction; cbn in *; congruence.
  - repeat split; clause_eq.
Qed.

(** C3, at the target [/__proto__].  [5 gt /__proto__] is normalized to
    [/__proto__ lt 5] and compiles as that clause does; but the assignment
    of the bound to the key [__proto__] creates no property, so the [range]
    of the converted document is empty: it has no bound [lt] and does not
    hold the literal, where [5 gt /foo] gives
    [{ range: { foo: { lt: 5 } } }]. *)
Theorem proto_key_swapped_bound_is_lost :
  let run s op o :=
    convert (FilterInstance (mkFilter [Examples.clause "" s op o])) None in
  let document fragment :=
    JObj [("filter", JObj [("bool", JObj [("must", JArr [fragment])])])] in
  path Inputs.proto = [SegStr "__proto__"]
  ∧ normalizeClause (clause_of (JNum 5) "gt" (JTarget Inputs.proto)) =
      clause_of (JTarget Inputs.proto) "lt" (JNum 5)
  ∧ run (JNum 5) "gt" (JTarget Inputs.proto) =
      Ok {| Converted.fields := ["/__proto__"];
            Converted.value := document (JObj [("range", JObj [])]) |}
  ∧ run (JTarget Inputs.proto) "lt" (JNum 5) =
      Ok {| Converted.fields := ["/__proto__"];
            Converted.value := document (JObj [("range", JObj [])]) |}
  ∧ run (JNum 5) "gt" (JTarget Examples.foo) =
      Ok {| Converted.fields := ["/foo"];
            Converted.value :=
              document
                (JObj [("range", JObj [("foo", JObj [("lt", JNum 5)])])]) |}.
Proof. cbn zeta. split_and!; vm_compute; reflexivity. Qed.

(** *** [like] *)

Lemma endsWith_dollar_slice s :
  endsWith_dollar s = true → s = slice_0_m1 s +:+ "$".
Proof.
  induction s as [|c s IH]; [done|]. destruct s as [|c' s'].
  - cbn. intros ->%Ascii.eqb_eq. reflexivity.
  - intros H.
    change (String c (String c' s') =
              String c (slice_0_m1 (String c' s') +:+ "$")).
    f_equal. apply IH, H.
Qed.

Lemma endsWith_dollar_app x : endsWith_dollar (x +:+ "$") = true.
Proof.
  induction x as [|c x IH]; [done|]. destruct x as [|c' x']; [done|].
  exact IH.
Qed.

Lemma slice_0_m1_app x : slice_0_m1 (x +:+ "$") = x.
Proof.
  induction x as [|c x IH]; [done|]. destruct x as [|c' x']; [done|].
  change (String c (slice_0_m1 (String c' x' +:+ "$")) =
            String c (String c' x')).
  f_equal. exact IH.
Qed.

Lemma append_cons c s1 s2 : String c s1 +:+ s2 = String c (s1 +:+ s2).
Proof. reflexivity. Qed.

Lemma append_empty_r s : s +:+ "" = s.
Proof. induction s as [|c s IH]; [done|]. by rewrite append_cons, IH. Qed.

Lemma strip_anchors_anchored x : strip_anchors ("^" +:+ x +:+ "$") = x.
Proof.
  unfold strip_anchors.
  change ("^" +:+ x +:+ "$") with (String "^" (x +:+ "$")).
  cbn [startsWith_caret slice_1]. rewrite Ascii.eqb_refl.
  by rewrite endsWith_dollar_app, slice_0_m1_app.
Qed.

(** What [strip_anchors] removes: at most a [^] in front and a [$] behind. *)
Lemma strip_anchors_removes regex :
  ∃ a b, a ∈ [""; "^"] ∧ b ∈ [""; "$"]
         ∧ regex = a +:+ strip_anchors regex +:+ b.
Proof.
  unfold strip_anchors.
  destruct (startsWith_caret regex) eqn:Hp.
  - destruct regex as [|c r]; [done|]. cbn in Hp.
    apply Ascii.eqb_eq in Hp as ->. cbn [slice_1].
    destruct (endsWith_dollar r) eqn:He.
    + exists "^", "$". split_and!; [set_solver..|].
      cbn. f_equal. by apply endsWith_dollar_slice.
    + exists "^", "". split_and!; [set_solver..|].
      cbn. f_equal. by rewrite append_empty_r.
  - destruct (endsWith_dollar regex) eqn:He.
    + exists "", "$". split_and!; [set_solver..|].
      by apply endsWith_dollar_slice.
    + exists "", "". split_and!; [set_solver..|].
      cbn. by rewrite append_empty_r.
Qed.

(** A [like] clause with a target [t] on one side and a non-target [o] on
    the other (the object once the target has been made the subject) fails
    with [ConvertError] unless [o] is a [Like] whose value is a string.
    Otherwise the string [toRegexString()] returns loses at most one leading
    [^] and one trailing [$], and the fragment is
    [{ regexp: { [key]: string } }] on the canonical key of [t], the object
    under [regexp] being empty when the key is [__proto__].  For a [Like]
    rendered as the spec describes ([*] to [.*], [_] to [.{1}], anchored)
    the string is the rendering without its anchors; the pattern
    [*Hello World_] gives [.*Hello World.{1}]. *)
Theorem like_renders_unanchored_regexp (t : Target) (o : jsval)
    (this : Builder) (Hlit : is_Target o = false) :
  let outcome :=
    match o with
    | JLike (JStr _) regex =>
        with_key t (λ key, regexp_ key (strip_anchors regex)) this
    | _ => Err unconvertible
    end in
  _build_clause (clause_of (JTarget t) "like" o) this = outcome
  ∧ _build_clause (clause_of o "like" (JTarget t)) this = outcome
  ∧ (∀ regex, ∃ a b,
       a ∈ [""; "^"] ∧ b ∈ [""; "$"]
       ∧ regex = a +:+ strip_anchors regex +:+ b)
  ∧ (∀ pattern,
       _build_clause (clause_of (JTarget t) "like" (Like_new pattern)) this =
         with_key t (λ key, regexp_ key (Like_render pattern)) this)
  ∧ Like_render "*Hello World_" = ".*Hello World.{1}".
Proof.
  cbn zeta. split_and!.
  - destruct o as [| | | | | | | |[]|]; try discriminate Hlit; clause_eq.
  - destruct o as [| | | | | | | |[]|]; try discriminate Hlit; clause_eq.
  - apply strip_anchors_removes.
  - intros pattern.
    transitivity
      (with_key t
         (λ key, regexp_ key (strip_anchors (Like_toRegexString pattern)))
         this).
    + unfold Like_new. clause_eq.
    + unfold Like_toRegexString. by rewrite strip_anchors_anchored.
  - reflexivity.
Qed.

(** C5, at the target [/__proto__].  For [/__proto__ like "*Hello World_"]
    the pattern is rendered and the anchors are stripped, but the assignment
    of the resulting string to the key [__proto__] creates no property: the
    [regexp] of the converted document is empty and carries no string, where
    the same clause on [/foo/bar] gives
    [{ regexp: { "foo.bar": ".*Hello World.{1}" } }]. *)
Theorem proto_key_regexp_is_lost :
  let run t o :=
    convert
      (FilterInstance (mkFilter [Examples.clause "" (JTarget t) "like" o]))
      None in
  let document fragment :=
    JObj [("filter", JObj [("bool", JObj [("must", JArr [fragment])])])] in
  path Inputs.proto = [SegStr "__proto__"]
  ∧ Like_new "*Hello World_" =
      JLike (JStr "*Hello World_") "^.*Hello World.{1}$"
  ∧ strip_anchors "^.*Hello World.{1}$" = ".*Hello World.{1}"
  ∧ run Inputs.proto (Like_new "*Hello World_") =
      Ok {| Converted.fields := ["/__proto__"];
            Converted.value := document (JObj [("regexp", JObj [])]) |}
  ∧ run Examples.foo_bar (Like_new "*Hello World_") =
      Ok {| Converted.fields := ["/foo/bar"];
            Converted.value :=
              document
                (JObj [("regexp",
                         JObj [("foo.bar", JStr ".*Hello World.{1}")])]) |}.
Proof. cbn zeta. split_and!; vm_compute; reflexivity. Qed.

(** *** Scripted comparisons *)

Lemma scriptOperator_unknown op :
  op ∉ script_operators →
  scriptOperator {| type := op |} = Err (errors.ConvertError None).
Proof.
  intros Hop. unfold scriptOperator. cbn.
  repeat (case_eqb; [exfalso; apply Hop; subst; set_solver|]).
  reflexivity.
Qed.

(** C9.  With an operator other than [eq], [neq], [gt], [gte], [lt] and
    [lte], a clause between two non-targets fails with [ConvertError], and a
    clause between two targets resolves its subject first: it fails with the
    error of that resolution if there is one, and with [ConvertError]
    otherwise, the object never being resolved.  The six operators are the
    ones with a script symbol, and with one of them both shapes compile to a
    [script] fragment. *)
Theorem scripts_need_comparison_operator (lit1 lit2 : jsval) (ts to : Target)
    (op : string) (this : Builder)
    (Hs : is_Target lit1 = false) (Ho : is_Target lit2 = false)
    (Hop : op ∉ script_operators) :
  _build_clause (clause_of lit1 op lit2) this = Err (errors.ConvertError None)
  ∧ _build_clause (clause_of (JTarget ts) op (JTarget to)) this =
      match _target ts this with
      | Ok _ => Err (errors.ConvertError None)
      | Err e => Err e
      end
  ∧ scriptOperator {| type := op |} = Err (errors.ConvertError None)
  ∧ (scriptOperator {| type := "eq" |} = Ok "=="
     ∧ scriptOperator {| type := "neq" |} = Ok "!="
     ∧ scriptOperator {| type := "gt" |} = Ok ">"
     ∧ scriptOperator {| type := "gte" |} = Ok ">="
     ∧ scriptOperator {| type := "lt" |} = Ok "<"
     ∧ scriptOperator {| type := "lte" |} = Ok "<=")
  ∧ (∀ op' sym,
       scriptOperator {| type := op' |} = Ok sym →
       _build_clause (clause_of lit1 op' lit2) this =
         Ok (script_literals_ sym lit1 lit2, this)
       ∧ _build_clause (clause_of (JTarget ts) op' (JTarget to)) this =
           (s <- _target ts ;; o <- _target to ;;
            ret (script_targets_ sym s o)) this).
Proof.
  pose proof (scriptOperator_unknown op Hop) as Hunknown.
  split_and!; try done.
  - unfold _build_clause, scriptLiterals, lift. cbn. rewrite Hs, Ho. cbn.
    by rewrite Hunknown.
  - unfold _build_clause, _scriptTargets, bind, lift. cbn.
    destruct (_target ts this) as [[s this1]|e]; [|done].
    by rewrite Hunknown.
  - intros op' sym Hsym. split.
    + unfold _build_clause, scriptLiterals, lift. cbn. rewrite Hs, Ho. cbn.
      by rewrite Hsym.
    + unfold _build_clause, _scriptTargets, bind, lift, ret. cbn.
      destruct (_target ts this) as [[s this1]|e]; [|done].
      rewrite Hsym. done.
Qed.

(** ** The walk: which fields it registers and how it can fail *)

Lemma registered_app l1 l2 this :
  registered (l1 ++ l2) this = registered l2 (registered l1 this).
Proof. apply foldl_app. Qed.

Lemma register_strategy f this : _strategy (register f this) = _strategy this.
Proof. unfold register. by destruct (bool_decide _). Qed.

Lemma registered_strategy l : ∀ this,
  _strategy (registered l this) = _strategy this.
Proof.
  induction l as [|f l IH]; intros this; [done|].
  cbn. unfold registered in IH. by rewrite IH, register_strategy.
Qed.

Lemma clause_targets_shape (c : Clause) :
  clause_targets c =
    (if is_Target (subject c) then [field (as_Target (subject c))] else [])
    ++ (if is_Target (object c) then [field (as_Target (object c))] else []).
Proof.
  unfold clause_targets. by destruct (subject c), (object c).
Qed.

Section walks.
(** [S] is what is known of the strategy of the run, [names] the kinds of
    error [_target] can fail with under such a strategy, besides which
    the walk only fails with [ConvertError]. *)
Variable S : Strategy → Prop.
Variable names : list string.
Hypothesis names_target : ∀ t this e,
  S (_strategy this) → _target t this = Err e → name e ∈ names.
Hypothesis names_convert : "ConvertError" ∈ names.

Lemma walks_ret {A} (a : A) : walks S names (ret a) [].
Proof. intros this. reflexivity. Qed.

Lemma walks_throw {A} m l : walks S names (@throw A (errors.ConvertError m)) l.
Proof. intros this _. exact names_convert. Qed.

Lemma walks_bind {A B} (m : M A) (k : A → M B) l1 l2 :
  walks S names m l1 → (∀ a, walks S names (k a) l2) → walks S names (bind m k) (l1 ++ l2).
Proof.
  intros Hm Hk this. unfold bind. specialize (Hm this).
  destruct (m this) as [[a this1]|e]; [|assumption].
  specialize (Hk a this1). subst this1.
  destruct (k a _) as [[b this2]|e].
  - by rewrite registered_app.
  - by rewrite registered_strategy in Hk.
Qed.

Lemma walks_bind_ret {A B} (m : M A) (f : A → B) l :
  walks S names m l → walks S names (a <- m ;; ret (f a)) l.
Proof.
  intros Hm. rewrite <- (app_nil_r l).
  apply walks_bind; [assumption|]. intros a. apply walks_ret.
Qed.

Lemma walks_target t : walks S names (_target t) [field t].
Proof.
  intros this. destruct (_target t this) as [[key this']|e] eqn:Ht.
  - unfold _target in Ht.
    repeat (destruct (_ && _) in Ht; [discriminate|]).
    destruct (_target_path _ _ _); [|discriminate].
    by injection Ht as _ <-.
  - intros HS. by eapply names_target.
Qed.

Lemma walks_scriptOperator {A} op (k : string → M A) l :
  (∀ sym, walks S names (k sym) l) → walks S names (sym <- lift (scriptOperator op) ;; k sym) l.
Proof.
  intros Hk this. unfold bind, lift, scriptOperator.
  repeat (case_eqb; [apply Hk|]).
  intros _. exact names_convert.
Qed.

Ltac walk :=
  repeat first
    [ apply walks_bind_ret
    | apply walks_target
    | apply walks_throw
    | match goal with
      | |- walks _ _ (if ?b then _ else _) _ => destruct b
      | |- walks _ _ (match ?x with _ => _ end) _ => destruct x
      end ].

Lemma walks_exists c : walks S names (_exists c) [field (as_Target (subject c))].
Proof. unfold _exists. walk. Qed.

Lemma walks_comparison c :
  walks S names (_comparison c) [field (as_Target (subject c))].
Proof. unfold _comparison. walk. Qed.

Lemma walks_range c : walks S names (_range c) [field (as_Target (subject c))].
Proof. unfold _range. walk. Qed.

Lemma walks_eq c : walks S names (_eq c) [field (as_Target (subject c))].
Proof.
  unfold _eq. walk; try first [apply walks_exists|apply walks_comparison].
Qed.

Lemma walks_like c : walks S names (_like c) [field (as_Target (subject c))].
Proof. unfold _like. walk. Qed.

Lemma walks_between c : walks S names (_between c) [field (as_Target (subject c))].
Proof. unfold _between. walk. Qed.

Lemma walks_in c : walks S names (_in c) [field (as_Target (subject c))].
Proof. unfold _in. walk; try apply walks_comparison. Qed.

(** Every method of the dispatch resolves the subject and nothing else. *)
Lemma walks_dispatch (clause : Clause) (unknown : option string) :
  let t := type (operator clause) in
  walks S names
    (if String.eqb t "eq" then _eq clause
     else if String.eqb t "neq" then _neq clause
     else if String.eqb t "gt" then _gt clause
     else if String.eqb t "gte" then _gte clause
     else if String.eqb t "lt" then _lt clause
     else if String.eqb t "lte" then _lte clause
     else if String.eqb t "like" then _like clause
     else if String.eqb t "nlike" then _nlike clause
     else if String.eqb t "between" then _between clause
     else if String.eqb t "nbetween" then _nbetween clause
     else if String.eqb t "in" then _in clause
     else if String.eqb t "nin" then _nin clause
     else throw (errors.ConvertError unknown))
    [field (as_Target (subject clause))].
Proof.
  cbn zeta.
  unfold _neq, _gt, _gte, _lt, _lte, _nlike, _nbetween, _nin.
  walk;
    try first [ apply walks_exists | apply walks_range | apply walks_eq
              | apply walks_like | apply walks_between | apply walks_in ].
Qed.

Lemma walks_build_clause (sval : Clause) :
  walks S names (_build_clause sval) (clause_targets sval).
Proof.
  rewrite clause_targets_shape. unfold _build_clause.
  destruct (is_Target (subject sval)) eqn:Hs,
    (is_Target (object sval)) eqn:Ho; cbn [andb negb].
  - unfold _scriptTargets.
    apply walks_bind; [apply walks_target|]. intros s.
    apply walks_scriptOperator. intros sym.
    apply walks_bind_ret, walks_target.
  - replace (normalizeClause sval) with sval
      by (unfold normalizeClause; by rewrite Ho).
    rewrite app_nil_r. apply walks_dispatch.
  - assert (object sval = subject (normalizeClause sval)) as ->
      by (unfold normalizeClause; by rewrite Ho).
    apply walks_dispatch.
  - intros this. unfold lift, scriptLiterals, scriptOperator.
    repeat (case_eqb; [reflexivity|]).
    intros _. exact names_convert.
Qed.

Lemma walks_build_loop (_build' : Filter → M jsval) stmts :
  Forall (holds_of_subfilter (λ sub, walks S names (_build' sub) (referenced sub)))
    stmts →
  ∀ groups must,
    walks S names (_build_loop _build' stmts groups must)
      (flat_map statement_targets stmts).
Proof.
  induction 1 as [|s rest Hs _ IH]; intros groups must.
  - cbn. destruct (bool_decide _); apply walks_ret.
  - cbn [_build_loop flat_map].
    destruct (String.eqb _ _ && _);
      (apply walks_bind; [|intros; apply IH]);
      unfold _build_statement, statement_targets, holds_of_subfilter in *;
      destruct (statement_value s);
      first [ assumption | apply walks_build_clause | apply walks_throw ].
Qed.

Lemma walks_build filter : walks S names (_build filter) (referenced filter).
Proof.
  induction filter as [stmts IH] using Filter_induction.
  cbn [_build referenced]. by apply walks_build_loop.
Qed.
End walks.

Lemma _target_path_error target segs : ∀ val e,
  _target_path target segs val = Err e → e = errors.InvalidTargetError target.
Proof.
  induction segs as [|seg rest IH]; intros val e; cbn; [done|].
  destruct (invalidTarget_test _); [by intros [= <-]|]. apply IH.
Qed.

Lemma _target_errors t this e :
  _target t this = Err e → name e ∈ walk_errors.
Proof.
  unfold _target, walk_errors.
  destruct (_ && _); [intros [= <-]; set_solver|].
  destruct (_ && _); [intros [= <-]; set_solver|].
  destruct (_target_path _ _ _) eqn:Hp; [done|].
  intros [= <-]. apply _target_path_error in Hp as ->. set_solver.
Qed.

Lemma _target_unrestricted t this :
  unrestricted (_strategy this) →
  _target t this =
    match _target_path t (path t) "" with
    | Ok val => Ok (val, register (field t) this)
    | Err e => Err e
    end.
Proof.
  intros [Ha Hd]. unfold _target. rewrite Ha, Hd.
  rewrite (bool_decide_eq_false_2 (0 < 0)) by lia. reflexivity.
Qed.

Lemma _target_errors_unrestricted t this e :
  unrestricted (_strategy this) → _target t this = Err e →
  name e ∈ ["ConvertError"; "InvalidTargetError"].
Proof.
  intros HS. rewrite _target_unrestricted by done.
  destruct (_target_path _ _ _) eqn:Hp; [done|].
  intros [= <-]. apply _target_path_error in Hp as ->. set_solver.
Qed.

(** A successful walk registers the referenced fields in order and changes
    nothing else. *)
Lemma _build_registers filter this v this' :
  _build filter this = Ok (v, this') →
  this' = registered (referenced filter) this.
Proof.
  intros H.
  pose proof (walks_build (λ _, True) walk_errors
                (λ t this e _, _target_errors t this e)
                ltac:(set_solver) filter this) as Hw.
  by rewrite H in Hw.
Qed.

Lemma _build_errors filter this e :
  _build filter this = Err e → name e ∈ walk_errors.
Proof.
  intros H.
  pose proof (walks_build (λ _, True) walk_errors
                (λ t this e _, _target_errors t this e)
                ltac:(set_solver) filter this) as Hw.
  rewrite H in Hw. by apply Hw.
Qed.

Lemma _build_errors_unrestricted filter this e :
  unrestricted (_strategy this) → _build filter this = Err e →
  name e ∈ ["ConvertError"; "InvalidTargetError"].
Proof.
  intros HS H.
  pose proof (walks_build unrestricted ["ConvertError"; "InvalidTargetError"]
                _target_errors_unrestricted ltac:(set_solver) filter this)
    as Hw.
  rewrite H in Hw. by apply Hw.
Qed.

(** *** The discovered fields *)

Lemma first_occurrences_elem l x : x ∈ first_occurrences l ↔ x ∈ l.
Proof.
  induction l as [|y l IH]; [done|]. cbn.
  rewrite !elem_of_cons, list_elem_of_filter, IH.
  destruct (decide (x = y)); naive_solver.
Qed.

Lemma first_occurrences_NoDup l : NoDup (first_occurrences l).
Proof.
  induction l as [|y l IH]; cbn; constructor.
  - rewrite list_elem_of_filter. naive_solver.
  - by apply NoDup_filter.
Qed.

Lemma register_synced f this : synced this → synced (register f this).
Proof.
  intros Hs g. unfold register. case_bool_decide; [apply Hs|].
  cbn [_fields fields]. specialize (Hs g). set_solver.
Qed.

Lemma register_fields f this :
  fields (register f this) =
    fields this ++ (if bool_decide (f ∈ _fields this) then [] else [f]).
Proof.
  unfold register. case_bool_decide; [by rewrite app_nil_r|done].
Qed.

Lemma registered_fields l : ∀ this,
  synced this →
  synced (registered l this)
  ∧ fields (registered l this) =
      fields this ++ filter (λ f, f ∉ fields this) (first_occurrences l).
Proof.
  induction l as [|x l IH]; intros this Hs.
  - cbn. by rewrite app_nil_r.
  - change (registered (x :: l) this) with (registered l (register x this)).
    destruct (IH (register x this) (register_synced x this Hs)) as [Hs' ->].
    split; [assumption|].
    rewrite register_fields. cbn [first_occurrences].
    rewrite filter_cons, list_filter_filter.
    case_bool_decide as Hx.
    + rewrite app_nil_r. apply Hs in Hx.
      rewrite decide_False by naive_solver. f_equal.
      apply list_filter_iff. intros y. naive_solver.
    + rewrite decide_True by (by rewrite <- (Hs x)).
      rewrite <- app_assoc. cbn. do 2 f_equal.
      apply list_filter_iff. intros y.
      rewrite elem_of_app, list_elem_of_singleton. naive_solver.
Qed.

Lemma start_synced filter strategy : synced (start filter strategy).
Proof. intros f. cbn. set_solver. Qed.

Lemma filter_all {A} (P : A → Prop) `{!∀ x, Decision (P x)} (l : list A) :
  (∀ x, P x) → filter P l = l.
Proof.
  intros HP. induction l as [|x l IH]; [done|].
  by rewrite filter_cons_True, IH.
Qed.

Lemma walk_fields filter strategy :
  let this' := registered (referenced filter) (start filter strategy) in
  fields this' = first_occurrences (referenced filter)
  ∧ (∀ f, f ∈ _fields this' ↔ f ∈ fields this')
  ∧ _strategy this' = strategy.
Proof.
  cbn zeta.
  destruct (registered_fields (referenced filter) (start filter strategy)
              (start_synced filter strategy)) as [Hs Hf].
  split_and!; [|exact Hs|by rewrite registered_strategy].
  rewrite Hf. cbn. apply filter_all. intros f. set_solver.
Qed.

(** [convert] on instances of [Filter] and [Strategy], in terms of the
    walk. *)
Lemma convert_walk filter strategy :
  convert (FilterInstance filter) (Some (StrategyInstance strategy)) =
    match _build filter (start filter strategy) with
    | Err e => Err e
    | Ok (v, this') =>
        match validate_loop (require strategy) this' with
        | Err e => Err e
        | Ok _ => Ok {| Converted.fields := fields this';
                        Converted.value := obj1 "filter" v |}
        end
    end.
Proof.
  unfold convert, build, validate, lift. cbn. fold (start filter strategy).
  destruct (_build filter _) as [[v this']|e] eqn:Hb; [|done].
  apply _build_registers in Hb. cbn.
  rewrite Hb at 1. rewrite registered_strategy. cbn.
  set (this'' := {| _filter := _ |}).
  replace (validate_loop (require strategy) this'')
    with (validate_loop (require strategy) this').
  2:{ generalize (require strategy). intros l. induction l as [|r l IH]; [done|].
      cbn. by rewrite IH. }
  by destruct (validate_loop _ _).
Qed.

(** A conversion that succeeds ran under an instance of [Strategy]: the one
    given, or the default one. *)
Lemma convert_ok_strategy f strategy r :
  convert (FilterInstance f) strategy = Ok r →
  ∃ s, convert (FilterInstance f) (Some (StrategyInstance s)) = Ok r.
Proof.
  destruct strategy as [[s|v]|]; [by exists s| |by exists defaultStrategy].
  destruct v; try discriminate. by exists defaultStrategy.
Qed.

(** C6.  When [convert] succeeds, its [filter] argument is a [Filter] and
    the [fields] it returns are the fields of the targets in subject or
    object position anywhere in that filter, each once, in the order of
    their first occurrence.  Resolving a target appends its field to
    [this.fields] when [this._fields] does not hold it yet and leaves the
    list alone otherwise. *)
Theorem fields_in_first_occurrence_order (filter : FilterArg)
    (strategy : option StrategyArg) (r : Converted.t)
    (Hconvert : convert filter strategy = Ok r) :
  (∃ f, filter = FilterInstance f
        ∧ Converted.fields r = first_occurrences (referenced f)
        ∧ NoDup (Converted.fields r)
        ∧ ∀ x, x ∈ Converted.fields r ↔ x ∈ referenced f)
  ∧ (∀ t this key this',
       _target t this = Ok (key, this') →
       this' = register (field t) this
       ∧ fields this' =
           fields this
           ++ (if bool_decide (field t ∈ _fields this) then []
               else [field t])).
Proof.
  split.
  - destruct filter as [f|v]; [|discriminate]. exists f.
    assert (∃ s, convert (FilterInstance f) (Some (StrategyInstance s)) = Ok r)
      as [s Hs].
    { eapply convert_ok_strategy; eassumption. }
    rewrite convert_walk in Hs.
    destruct (_build f _) as [[v this']|e] eqn:Hb; [|discriminate].
    destruct (validate_loop _ _); [|discriminate].
    injection Hs as <-. cbn [Converted.fields].
    apply _build_registers in Hb as ->.
    destruct (walk_fields f s) as (-> & _ & _).
    split_and!; [done|done|apply first_occurrences_NoDup|].
    apply first_occurrences_elem.
  - intros t this key this' Ht.
    pose proof (walks_target (λ _, True) walk_errors
                  (λ t this e _, _target_errors t this e) t this) as Hw.
    rewrite Ht in Hw. cbn in Hw. subst this'.
    split; [done|]. apply register_fields.
Qed.

Lemma validate_loop_ok reqs this :
  validate_loop reqs this = Ok tt ↔ ∀ req, req ∈ reqs → req ∈ _fields this.
Proof.
  induction reqs as [|r reqs IH]; cbn.
  - split; [intros _ req Hin; by apply elem_of_nil in Hin|done].
  - case_bool_decide as Hr; cbn.
    + rewrite IH. set_solver.
    + split; [done|]. intros H. exfalso. apply Hr, H. set_solver.
Qed.

(** A failing check reports the first required field that is missing. *)
Lemma validate_loop_err reqs this e :
  validate_loop reqs this = Err e →
  ∃ before req after,
    reqs = before ++ req :: after
    ∧ (∀ r, r ∈ before → r ∈ _fields this)
    ∧ (req ∉ _fields this)
    ∧ e = errors.RequiredFieldError req.
Proof.
  induction reqs as [|r reqs IH]; cbn; [done|].
  case_bool_decide as Hr; cbn.
  - intros (before & req & after & -> & Hb & Hreq & ->)%IH.
    exists (r :: before), req, after. set_solver.
  - intros [= <-]. exists [], r, reqs. set_solver.
Qed.

(** C8.  [convert] on a filter and a strategy first walks the whole filter.
    If the walk fails, [convert] fails with the error of the walk, which is
    never a [RequiredFieldError].  If it succeeds, the discovered fields are
    the referenced fields in first-occurrence order, and [convert] fails
    exactly when some field of [require] is not among them: then the error
    is the [RequiredFieldError] of the first missing field of [require],
    with the field as its [data] and [Missing required field: ] followed by
    the field as its message, and no other error is possible at that point;
    otherwise [convert] returns the discovered fields and the document of the
    walk under the key [filter].  A field referenced in subject or object
    position anywhere in the filter is among the discovered fields. *)
Theorem required_fields_checked_after_walk (filter : Filter)
    (strategy : Strategy) :
  let run := convert (FilterInstance filter) (Some (StrategyInstance strategy)) in
  match _build filter (start filter strategy) with
  | Err e => run = Err e ∧ name e ≠ "RequiredFieldError"
  | Ok (v, this') =>
      fields this' = first_occurrences (referenced filter)
      ∧ ((∃ e, run = Err e ∧ name e = "RequiredFieldError")
         ↔ ∃ req, req ∈ require strategy ∧ req ∉ fields this')
      ∧ (∀ e, run = Err e →
           ∃ before req after,
             require strategy = before ++ req :: after
             ∧ (∀ r, r ∈ before → r ∈ fields this')
             ∧ (req ∉ fields this')
             ∧ e = {| name := "RequiredFieldError";
                      message := "Missing required field: " +:+ req;
                      data := FieldData req |})
      ∧ ((∀ req, req ∈ require strategy → req ∈ fields this') →
         run = Ok {| Converted.fields := fields this';
                     Converted.value := JObj [("filter", v)] |})
      ∧ (∀ x, x ∈ referenced filter → x ∈ fields this')
  end.
Proof.
  cbv zeta. rewrite convert_walk.
  destruct (_build filter _) as [[v this']|e] eqn:Hb.
  - apply _build_registers in Hb as ->.
    destruct (walk_fields filter strategy) as (Hf & Hsync & _).
    set (this' := registered _ _) in *.
    assert (∀ e, validate_loop (require strategy) this' = Err e →
                 ∃ before req after,
                   require strategy = before ++ req :: after
                   ∧ (∀ r, r ∈ before → r ∈ fields this')
                   ∧ (req ∉ fields this')
                   ∧ e = missing_required req) as Herr.
    { intros e (before & req & after & ? & ? & ? & ?)%validate_loop_err.
      exists before, req, after. split_and!; try done.
      - intros r Hr. apply Hsync. auto.
      - by rewrite <- Hsync. }
    split_and!.
    + exact Hf.
    + split.
      * intros (e & He & _).
        destruct (validate_loop _ _) eqn:Hv; [done|].
        injection He as ->.
        destruct (Herr _ eq_refl) as (before & req & after & Hreq & _ & ? & _).
        exists req. split; [|done]. rewrite Hreq. set_solver.
      * intros (req & Hin & Hmiss).
        destruct (validate_loop _ _) as [[]|e] eqn:Hv.
        -- exfalso. apply Hmiss, Hsync.
           by apply (proj1 (validate_loop_ok _ _) Hv).
        -- exists e. split; [done|].
           by destruct (Herr _ eq_refl) as (? & ? & ? & _ & _ & _ & ->).
    + intros e He. destruct (validate_loop _ _) eqn:Hv; [done|].
      injection He as ->. by apply Herr.
    + intros Hall.
      assert (validate_loop (require strategy) this' = Ok tt) as ->; [|done].
      apply validate_loop_ok. intros req Hreq. apply Hsync. auto.
    + intros x Hx. rewrite Hf. by apply first_occurrences_elem.
  - split; [done|]. apply _build_errors in Hb.
    intros Hname. rewrite Hname in Hb. unfold walk_errors in Hb.
    set_unfold. naive_solver.
Qed.

(** C10.  [convert] fails with a [TypeError], which is not one of the
    exported error kinds, whenever its first argument is not a [Filter],
    whatever the second argument is, and whenever the first is a [Filter]
    and the second is given, is not [undefined] and is not a [Strategy];
    nothing of the filter is looked at.  An omitted strategy, and
    [undefined] given for it, stand for [new Strategy({})], which restricts
    and requires nothing; with instances of [Filter] and [Strategy] no
    [TypeError] occurs, and with the strategy omitted the only errors left
    are [ConvertError] and [InvalidTargetError]. *)
Theorem convert_rejects_foreign_arguments :
  (∀ v strategy, convert (FilterOther v) strategy = Err (TypeError msg.argFilter))
  ∧ (∀ f v, v ≠ JUndefined →
            convert (FilterInstance f) (Some (StrategyOther v)) =
              Err (TypeError msg.argStrategy))
  ∧ (∀ f, convert (FilterInstance f) (Some (StrategyOther JUndefined)) =
            convert (FilterInstance f) None)
  ∧ (∀ m, TypeError m = {| name := "TypeError"; message := m; data := NoData |}
          ∧ in_taxonomy (TypeError m) = false)
  ∧ Strategy_new (ArgObject Settings.empty) = Ok defaultStrategy
  ∧ unrestricted defaultStrategy
  ∧ require defaultStrategy = []
  ∧ (∀ f, convert (FilterInstance f) None =
            convert (FilterInstance f) (Some (StrategyInstance defaultStrategy)))
  ∧ (∀ f s e, convert (FilterInstance f) (Some (StrategyInstance s)) = Err e →
              name e ≠ "TypeError")
  ∧ (∀ f e, convert (FilterInstance f) None = Err e →
            name e ∈ ["ConvertError"; "InvalidTargetError"]).
Proof.
  assert (∀ f s e, convert (FilterInstance f) (Some (StrategyInstance s)) = Err e →
                   name e ≠ "TypeError") as Hinst.
  { intros f s e. rewrite convert_walk.
    destruct (_build f _) as [[v this']|e'] eqn:Hb.
    - destruct (validate_loop _ _) eqn:Hv; [done|]. intros [= ->].
      by destruct (validate_loop_err _ _ _ Hv) as (? & ? & ? & _ & _ & _ & ->).
    - intros [= ->]. apply _build_errors in Hb. intros Hname.
      rewrite Hname in Hb. unfold walk_errors in Hb. set_unfold. naive_solver. }
  split_and!; try done.
  { intros f v Hv. by destruct v. }
  intros f e. change (convert (FilterInstance f) None)
    with (convert (FilterInstance f) (Some (StrategyInstance defaultStrategy))).
  rewrite convert_walk.
  destruct (_build f _) as [[v this']|e'] eqn:Hb.
  - cbn. done.
  - intros [= ->]. eapply _build_errors_unrestricted; [|exact Hb].
    split; reflexivity.
Qed.

(** ** The strategy *)

Lemma createTargetSet_loop_nonstring nm items v : ∀ set,
  v ∈ items → is_string v = false →
  ∃ e, createTargetSet_loop nm items set = Err e.
Proof.
  induction items as [|w items IH]; intros set Hin Hv.
  - by apply elem_of_nil in Hin.
  - apply elem_of_cons in Hin as [<-|Hin].
    + destruct v; try discriminate; by eexists.
    + destruct w; try (by eexists). cbn. by apply IH.
Qed.

Lemma createTargetSet_loop_err_inv nm items : ∀ set e,
  createTargetSet_loop nm items set = Err e →
  ∃ v, v ∈ items ∧ is_string v = false.
Proof.
  induction items as [|w items IH]; intros set e; [done|].
  destruct (is_string w) eqn:Hw.
  - destruct w; try discriminate. cbn.
    intros (v & Hv & Hvs)%IH. exists v. set_solver.
  - intros _. exists w. set_solver.
Qed.

Lemma createTargetSet_loop_members nm items : ∀ set set',
  createTargetSet_loop nm items set = Ok set' →
  set ⊆ set' ∧ ∀ v, v ∈ items → ∃ x, v = JStr x ∧ x ∈ set'.
Proof.
  induction items as [|w items IH]; intros set set'.
  - intros [= <-]. split; [done|]. intros v Hv. by apply elem_of_nil in Hv.
  - destruct w; try discriminate. cbn.
    intros [Hsub Hmem]%IH. split; [set_solver|].
    intros v [->|Hv]%elem_of_cons; [|by apply Hmem].
    eexists. split; [done|]. set_solver.
Qed.

Lemma createTargetSet_loop_TypeError nm items : ∀ set e,
  createTargetSet_loop nm items set = Err e → name e = "TypeError".
Proof.
  induction items as [|w items IH]; intros set e; [done|].
  destruct w; try (by intros [= <-]). cbn. apply IH.
Qed.

Lemma createTargetSet_TypeError value nm e :
  createTargetSet value nm = Err e → name e = "TypeError".
Proof.
  unfold createTargetSet. destruct value; cbn; try (by intros [= <-]).
  apply createTargetSet_loop_TypeError.
Qed.

(** Whatever the constructor throws is a [TypeError]. *)
Lemma Strategy_new_TypeError settings e :
  Strategy_new settings = Err e → name e = "TypeError".
Proof.
  destruct settings as [|v|s]; cbn; try (by intros [= <-]).
  destruct (createTargetSet (Settings.allow s) _) eqn:Ha;
    [|intros [= <-]; by eapply createTargetSet_TypeError].
  destruct (createTargetSet (Settings.deny s) _) eqn:Hd;
    [|intros [= <-]; by eapply createTargetSet_TypeError].
  destruct (_ && _); [|done]. by intros [= <-].
Qed.

(** A constructed strategy never has both [allow] and [deny] populated. *)
Lemma Strategy_new_exclusive settings s :
  Strategy_new settings = Ok s → size (allow s) = 0 ∨ size (deny s) = 0.
Proof.
  destruct settings as [|v|st]; cbn; try done.
  destruct (createTargetSet (Settings.allow st) _); [|done].
  destruct (createTargetSet (Settings.deny st) _); [|done].
  case_bool_decide; [|intros [= <-]; cbn; lia].
  case_bool_decide; [done|]. intros [= <-]; cbn; lia.
Qed.

Lemma createTargetSet_nonempty items nm set :
  items ≠ [] → createTargetSet (JArr items) nm = Ok set → 0 < size set.
Proof.
  intros Hne. unfold createTargetSet. cbn.
  intros [_ Hmem]%createTargetSet_loop_members.
  destruct items as [|v items]; [done|].
  destruct (Hmem v) as (x & _ & Hx); [set_solver|].
  destruct (decide (size set = 0)) as [H0|]; [|lia].
  apply size_empty_inv in H0. set_solver.
Qed.

(** C4, as the code has it.  Constructing a strategy with [allow] and
    [deny] both non-empty arrays, or with a member of [allow] or [deny]
    that is not a string, fails with a [TypeError], which is not one of
    the error kinds the library exports; when all the members are strings
    the message is the one about [allow] and [deny].  With [allow], [deny]
    and [require] all absent the constructor succeeds with the strategy
    that restricts nothing: under it every target passes the governance
    checks and [validate] succeeds. *)
Theorem strategy_settings_rejected_with_TypeError (s : Settings.t)
    (Hbad : both_nonempty s ∨ nonstring_member s) :
  (∃ e, Strategy_new (ArgObject s) = Err e
        ∧ name e = "TypeError" ∧ in_taxonomy e = false)
  ∧ (both_nonempty s → ¬ nonstring_member s →
     Strategy_new (ArgObject s) =
       Err (TypeError strategy_msg.argSettingsAllowDeny))
  ∧ (∀ s', elv (Settings.allow s') = false → elv (Settings.deny s') = false →
           Settings.require s' = None →
           Strategy_new (ArgObject s') = Ok defaultStrategy)
  ∧ (∀ t this, _strategy this = defaultStrategy →
       _target t this =
         match _target_path t (path t) "" with
         | Ok val => Ok (val, register (field t) this)
         | Err e => Err e
         end)
  ∧ (∀ this, _strategy this = defaultStrategy → validate this = Ok (tt, this)).
Proof.
  assert (both_nonempty s →
          ∀ allow deny,
            createTargetSet (Settings.allow s) "allow" = Ok allow →
            createTargetSet (Settings.deny s) "deny" = Ok deny →
            Strategy_new (ArgObject s) =
              Err (TypeError strategy_msg.argSettingsAllowDeny)) as Hboth.
  { intros (a & d & Ha & Hd & Hane & Hdne) allow deny Hallow Hdeny.
    cbn. rewrite Hallow, Hdeny.
    rewrite Ha in Hallow. rewrite Hd in Hdeny.
    apply createTargetSet_nonempty in Hallow, Hdeny; try done.
    by rewrite !bool_decide_eq_true_2. }
  split_and!.
  - assert (∃ e, Strategy_new (ArgObject s) = Err e) as [e He].
    { destruct (createTargetSet (Settings.allow s) "allow") as [allow|e] eqn:Ha;
        [|exists e; cbn; by rewrite Ha].
      destruct (createTargetSet (Settings.deny s) "deny") as [deny|e] eqn:Hd;
        [|exists e; cbn; by rewrite Ha, Hd].
      destruct Hbad as [Hb|(items & v & [Hi|Hi] & Hv & Hns)].
      - eexists. by eapply Hboth.
      - exfalso. rewrite Hi in Ha. unfold createTargetSet in Ha. cbn in Ha.
        destruct (createTargetSet_loop_nonstring "allow" items v ∅ Hv Hns).
        congruence.
      - exfalso. rewrite Hi in Hd. unfold createTargetSet in Hd. cbn in Hd.
        destruct (createTargetSet_loop_nonstring "deny" items v ∅ Hv Hns).
        congruence. }
    exists e. pose proof (Strategy_new_TypeError _ _ He) as Hname.
    split_and!; [done..|]. unfold in_taxonomy. rewrite Hname. done.
  - intros (a & d & Ha & Hd & Hane & Hdne) Hns.
    destruct (createTargetSet (Settings.allow s) "allow") as [allow|e] eqn:Hca.
    2:{ exfalso. apply Hns. rewrite Ha in Hca.
        apply createTargetSet_loop_err_inv in Hca as (v & Hv & Hvs).
        exists a, v. auto. }
    destruct (createTargetSet (Settings.deny s) "deny") as [deny|e] eqn:Hcd.
    2:{ exfalso. apply Hns. rewrite Hd in Hcd.
        apply createTargetSet_loop_err_inv in Hcd as (v & Hv & Hvs).
        exists d, v. auto. }
    eapply Hboth; [|done..]. by exists a, d.
  - intros s' Ha Hd Hr. cbn. unfold createTargetSet. by rewrite Ha, Hd, Hr.
  - intros t this Hs. apply _target_unrestricted. by rewrite Hs.
  - intros this Hs. unfold validate. by rewrite Hs.
Qed.

(** ** Resolving a target *)

Lemma _target_path_legal target segs : ∀ val,
  Forall legal segs → _target_path target segs val = Ok (path_key val segs).
Proof.
  induction segs as [|seg rest IH]; intros val Hlegal; [done|].
  apply Forall_cons in Hlegal as [Hseg Hrest]. cbn.
  unfold legal in Hseg.
  change (stringified seg) with (segment_toString seg) in Hseg.
  rewrite Hseg. by apply IH.
Qed.

Lemma _target_path_illegal target segs : ∀ val,
  ¬ Forall legal segs →
  _target_path target segs val = Err (errors.InvalidTargetError target).
Proof.
  induction segs as [|seg rest IH]; intros val Hill.
  - exfalso. apply Hill. constructor.
  - cbn. destruct (invalidTarget_test _) eqn:Hseg; [done|].
    apply IH. intros Hrest. apply Hill. by constructor.
Qed.

Lemma length_append s1 s2 :
  String.length (s1 +:+ s2) = String.length s1 + String.length s2.
Proof.
  induction s1 as [|c s1 IH]; [done|].
  rewrite append_cons. cbn. by rewrite IH.
Qed.

Lemma path_key_nonempty segs : ∀ val,
  0 < String.length val →
  path_key val segs = foldl (λ acc x, acc +:+ "." +:+ x) val (stringified <$> segs).
Proof.
  induction segs as [|seg rest IH]; intros val Hval; [done|].
  cbn. rewrite bool_decide_eq_true_2 by done.
  unfold path_key in IH. rewrite IH.
  - f_equal. clear. induction val as [|c val IHv]; [done|].
    by rewrite !append_cons, IHv.
  - rewrite !length_append. cbn. lia.
Qed.

(** The key is the segments joined with dots when the first segment is not
    the empty string. *)
Lemma path_key_join seg rest :
  stringified seg ≠ "" →
  path_key "" (seg :: rest) = join_dot (stringified <$> seg :: rest).
Proof.
  intros Hseg. cbn. apply path_key_nonempty.
  destruct (stringified seg); [done|]. cbn. lia.
Qed.

(** What [_target] does under a constructed strategy: the governance checks
    come first, then the walk over the path.  A denied field gives the
    [DeniedFieldError] of the field, a field a non-empty allow set lacks the
    [NonallowedFieldError] of the field, each with the field as [data] and
    at the end of its message; an illegal segment gives the
    [InvalidTargetError] with the path as [data] and the pointer at the end
    of its message; otherwise the key is returned and the field
    registered. *)
Lemma _target_outcome settings strategy t this :
  Strategy_new settings = Ok strategy → _strategy this = strategy →
  _target t this =
    if bool_decide (field t ∈ deny strategy)
    then Err {| name := "DeniedFieldError";
                message := "Black listed field encountered: " +:+ field t;
                data := FieldData (field t) |}
    else if bool_decide (0 < size (allow strategy))
            && negb (bool_decide (field t ∈ allow strategy))
    then Err {| name := "NonallowedFieldError";
                message := "Non-white listed field encountered: " +:+ field t;
                data := FieldData (field t) |}
    else if bool_decide (Forall legal (path t))
    then Ok (path_key "" (path t), register (field t) this)
    else Err {| name := "InvalidTargetError";
                message := "Invalid target encountered: " +:+ toJsonPointer t;
                data := PathData (path t) |}.
Proof.
  intros Hnew <-. apply Strategy_new_exclusive in Hnew.
  unfold _target.
  destruct (decide (field t ∈ deny (_strategy this))) as [Hd|Hd].
  - rewrite (bool_decide_eq_true_2 _ Hd).
    assert (0 < size (deny (_strategy this))) as Hpos.
    { destruct (decide (size (deny (_strategy this)) = 0)) as [H0|]; [|lia].
      apply size_empty_inv in H0. set_solver. }
    assert (size (allow (_strategy this)) = 0) as -> by lia.
    rewrite (bool_decide_eq_false_2 (0 < 0)) by lia.
    by rewrite (bool_decide_eq_true_2 _ Hpos).
  - rewrite (bool_decide_eq_false_2 _ Hd). rewrite andb_false_r.
    destruct (_ && _); [done|].
    case_bool_decide as Hlegal.
    + by rewrite _target_path_legal.
    + by rewrite _target_path_illegal.
Qed.

(** A target built by hand with the path [["", "a"]], which no parsed
    target has: no segment is illegal and the segments joined with dots are
    [.a], but the key [_target] returns is [a], the key of the target [/a]:
    no dot is added while the key is still empty. *)
Remark canonical_key_drops_leading_empty_segment :
  Forall legal (path Examples.slash_a)
  ∧ join_dot (stringified <$> path Examples.slash_a) = ".a"
  ∧ _target Examples.slash_a Examples.this0 =
      Ok ("a", register "//a" Examples.this0)
  ∧ _target (Examples.target "/a" ["a"]) Examples.this0 =
      Ok ("a", register "/a" Examples.this0)
  ∧ convert
      (FilterInstance
         (mkFilter [Examples.clause "" (JTarget Examples.slash_a) "eq" (JNum 1)]))
      None =
      Ok {| Converted.fields := ["//a"];
            Converted.value :=
              obj1 "filter" (bool_must [term_ "a" (JNum 1)]) |}.
Proof.
  split_and!.
  - repeat constructor.
  - reflexivity.
  - rewrite _target_unrestricted by done. reflexivity.
  - rewrite _target_unrestricted by done. reflexivity.
  - vm_compute. reflexivity.
Qed.

(** C4 as the spec words it fails: with [allow] and [deny] both non-empty
    the constructor throws, but what it throws is not a [ConfigError]. *)
Lemma strategy_settings_not_ConfigError :
  let s := {| Settings.allow := JArr [JStr "/foo"];
              Settings.deny := JArr [JStr "/bar"];
              Settings.require := None |} in
  both_nonempty s
  ∧ ¬ ∃ e, Strategy_new (ArgObject s) = Err e ∧ name e = "ConfigError".
Proof.
  cbn zeta. split.
  - eexists _, _. split_and!; done.
  - intros (e & He & Hname). vm_compute in He. injection He as <-.
    discriminate Hname.
Qed.

(** ** The scenarios of the README, and the theorems at concrete inputs *)

Example convert_eq_number :
  convert
    (FilterInstance
       (mkFilter [Examples.clause "" (JTarget Examples.foo) "eq" (JNum 42)]))
    None =
    Ok {| Converted.fields := ["/foo"];
          Converted.value := obj1 "filter" (bool_must [term_ "foo" (JNum 42)]) |}.
Proof. vm_compute. reflexivity. Qed.

Example convert_and :
  convert
    (FilterInstance
       (mkFilter [Examples.clause "" (JTarget Examples.foo) "eq" (JNum 42);
                  Examples.clause "and" (JTarget Examples.bar) "gt" (JNum 0)]))
    None =
    Ok {| Converted.fields := ["/foo"; "/bar"];
          Converted.value :=
            obj1 "filter"
              (bool_must [term_ "foo" (JNum 42); range_ "bar" "gt" (JNum 0)]) |}.
Proof. vm_compute. reflexivity. Qed.

Example convert_or :
  convert
    (FilterInstance
       (mkFilter [Examples.clause "" (JTarget Examples.foo) "eq" (JNum 42);
                  Examples.clause "or" (JTarget Examples.bar) "gt" (JNum 0)]))
    None =
    Ok {| Converted.fields := ["/foo"; "/bar"];
          Converted.value :=
            obj1 "filter"
              (bool_should [bool_must [term_ "foo" (JNum 42)];
                            bool_must [range_ "bar" "gt" (JNum 0)]]) |}.
Proof. vm_compute. reflexivity. Qed.

Example convert_nested :
  convert
    (FilterInstance
       (mkFilter
          [Examples.clause "" (JTarget Examples.foo) "neq" (JBool true);
           mkStatement "and"
             (VFilter
                (mkFilter
                   [Examples.clause "" (JTarget Examples.bar) "eq" (JNum 42);
                    Examples.clause "or" (JTarget Examples.foo) "gt" (JNum 0)]))]))
    None =
    Ok {| Converted.fields := ["/foo"; "/bar"];
          Converted.value :=
            obj1 "filter"
              (bool_must
                 [not_ (term_ "foo" (JBool true));
                  bool_should [bool_must [term_ "bar" (JNum 42)];
                               bool_must [range_ "foo" "gt" (JNum 0)]]]) |}.
Proof. vm_compute. reflexivity. Qed.

Example convert_eq_null :
  convert
    (FilterInstance
       (mkFilter [Examples.clause "" (JTarget Examples.foo) "eq" JNull]))
    None =
    Ok {| Converted.fields := ["/foo"];
          Converted.value :=
            obj1 "filter" (bool_must [not_ (exists_ "foo")]) |}.
Proof. vm_compute. reflexivity. Qed.

Example convert_denied :
  convert
    (FilterInstance
       (mkFilter [Examples.clause "" (JTarget Examples.foo) "eq" (JNum 42)]))
    (Some (StrategyInstance
             {| allow := ∅; deny := {["/foo"]}; require := [] |})) =
    Err (errors.DeniedFieldError "/foo").
Proof. vm_compute. reflexivity. Qed.

Example convert_like :
  convert
    (FilterInstance
       (mkFilter [Examples.clause "" (JTarget Examples.foo_bar) "like"
                    (Like_new "*Hello World_")]))
    None =
    Ok {| Converted.fields := ["/foo/bar"];
          Converted.value :=
            obj1 "filter" (bool_must [regexp_ "foo.bar" ".*Hello World.{1}"]) |}.
Proof. vm_compute. reflexivity. Qed.

Example convert_missing_required :
  convert
    (FilterInstance
       (mkFilter [Examples.clause "" (JTarget Examples.foo) "eq" (JNum 42)]))
    (Some (StrategyInstance
             {| allow := ∅; deny := ∅; require := ["/bar"] |})) =
    Err (errors.RequiredFieldError "/bar").
Proof. vm_compute. reflexivity. Qed.

Example invalidTarget_test_examples :
  invalidTarget_test "foo" = false
  ∧ invalidTarget_test "foo-bar" = false
  ∧ invalidTarget_test "foo--bar" = true
  ∧ invalidTarget_test "fo*o" = true
  ∧ invalidTarget_test (dq +:+ "foo") = true
  ∧ invalidTarget_test "a.b<c" = false.
Proof. vm_compute. done. Qed.

(** Comparisons of [/foo] with [null] and with [42]. *)
Lemma null_comparisons_emit_exists_witness :
  is_Target (JNum 42) = false ∧ is_null (JNum 42) = false
  ∧ _build_clause (clause_of (JTarget Examples.foo) "eq" JNull) Examples.this0 =
      with_key Examples.foo (λ key, must_not_ (exists_ key)) Examples.this0
  ∧ _build_clause (clause_of (JTarget Examples.foo) "eq" (JNum 42))
      Examples.this0 =
      with_key Examples.foo (λ key, term_ key (JNum 42)) Examples.this0.
Proof.
  split; [reflexivity|]. split; [reflexivity|].
  pose proof (null_comparisons_emit_exists Examples.foo (JNum 42)
                Examples.this0 eq_refl eq_refl) as H.
  cbn zeta in H. split; [apply H|apply H].
Defined.

(** [42 gt /foo] compiles as [/foo lt 42]. *)
Lemma operand_swap_inverts_ordering_witness :
  is_Target (JNum 42) = false ∧ is_null (JNum 42) = false
  ∧ _build_clause (clause_of (JNum 42) "gt" (JTarget Examples.foo))
      Examples.this0 =
      with_key Examples.foo (λ key, range_ key "lt" (JNum 42)) Examples.this0
  ∧ _build_clause (clause_of (JTarget Examples.foo) "lt" (JNum 42))
      Examples.this0 =
      with_key Examples.foo (λ key, range_ key "lt" (JNum 42)) Examples.this0.
Proof.
  split; [reflexivity|]. split; [reflexivity|].
  pose proof (operand_swap_inverts_ordering Examples.foo (JNum 42)
                Examples.this0 eq_refl eq_refl) as H.
  split; [apply H|apply H].
Defined.

(** [/foo/bar like "*Hello World_"]. *)
Lemma like_renders_unanchored_regexp_witness :
  is_Target (Like_new "*Hello World_") = false
  ∧ _build_clause
      (clause_of (JTarget Examples.foo_bar) "like" (Like_new "*Hello World_"))
      Examples.this0 =
      with_key Examples.foo_bar
        (λ key, regexp_ key (Like_render "*Hello World_")) Examples.this0
  ∧ Like_render "*Hello World_" = ".*Hello World.{1}".
Proof.
  split; [reflexivity|].
  pose proof (like_renders_unanchored_regexp Examples.foo_bar
                (Like_new "*Hello World_") Examples.this0 eq_refl) as H.
  cbn zeta in H. split; [apply H|apply H].
Defined.

(** ["a" like 1] and [/foo like /bar] have no scripted form. *)
Lemma scripts_need_comparison_operator_witness :
  is_Target (JStr "a") = false ∧ is_Target (JNum 1) = false
  ∧ ("like" ∉ script_operators)
  ∧ _build_clause (clause_of (JStr "a") "like" (JNum 1)) Examples.this0 =
      Err (errors.ConvertError None)
  ∧ _build_clause
      (clause_of (JTarget Examples.foo) "like" (JTarget Examples.bar))
      Examples.this0 =
      match _target Examples.foo Examples.this0 with
      | Ok _ => Err (errors.ConvertError None)
      | Err e => Err e
      end.
Proof.
  assert ("like" ∉ script_operators) as Hop
    by (apply (bool_decide_eq_false_1 _); vm_compute; reflexivity).
  split; [reflexivity|]. split; [reflexivity|]. split; [exact Hop|].
  pose proof (scripts_need_comparison_operator (JStr "a") (JNum 1)
                Examples.foo Examples.bar "like" Examples.this0
                eq_refl eq_refl Hop) as H.
  split; [apply H|apply H].
Defined.

(** [new Strategy({ allow: ['/foo'], deny: ['/bar'] })] throws a
    [TypeError]. *)
Lemma strategy_settings_rejected_with_TypeError_witness :
  let s := {| Settings.allow := JArr [JStr "/foo"];
              Settings.deny := JArr [JStr "/bar"];
              Settings.require := None |} in
  (both_nonempty s ∨ nonstring_member s)
  ∧ ∃ e, Strategy_new (ArgObject s) = Err e
         ∧ name e = "TypeError" ∧ in_taxonomy e = false.
Proof.
  cbn zeta.
  assert (both_nonempty
            {| Settings.allow := JArr [JStr "/foo"];
               Settings.deny := JArr [JStr "/bar"];
               Settings.require := None |}) as Hboth.
  { exists [JStr "/foo"], [JStr "/bar"].
    split; [reflexivity|]. split; [reflexivity|]. split; discriminate. }
  split; [left; exact Hboth|].
  apply (strategy_settings_rejected_with_TypeError _ (or_introl Hboth)).
Defined.

(** The fields of [fields_example], where [/foo] and [/bar] each occur
    twice, as subject and as object. *)
Lemma fields_in_first_occurrence_order_witness :
  ∃ r, convert (FilterInstance fields_example) None = Ok r
       ∧ Converted.fields r = ["/foo"; "/bar"; "/baz"]
       ∧ referenced fields_example = ["/foo"; "/bar"; "/bar"; "/foo"; "/baz"]
       ∧ Converted.fields r = first_occurrences (referenced fields_example).
Proof.
  eexists. split; [vm_compute; reflexivity|].
  split; [reflexivity|]. split; [reflexivity|].
  edestruct (fields_in_first_occurrence_order (FilterInstance fields_example)
               None) as [(f & Hf & Hfields & _) _].
  { vm_compute. reflexivity. }
  injection Hf as <-. exact Hfields.
Defined.


(** * Further properties *)

(** ** The remaining operators *)

(** [between] and [nbetween] on a target [t] and a non-target [o], in
    either operand order: a [Range] gives
    [{ range: { [key]: { gte: lower, lte: upper } } }], [key] the canonical
    key of [t] and [lower] and [upper] the bounds of the range, and
    [nbetween] gives that under [{ bool: { must_not: ... } }]; when the key
    is [__proto__] the object under [range] is empty.  Anything but a
    [Range] fails with the default [ConvertError] before the target is
    resolved. *)
Theorem between_emits_closed_range (t : Target) (o : jsval) (this : Builder)
    (Hlit : is_Target o = false) :
  let outcome wrap :=
    match o with
    | JRange lower upper =>
        with_key t
          (λ key,
             wrap
               (JObj [("range",
                        if String.eqb key "__proto__" then JObj []
                        else JObj [(key,
                                    JObj [("gte", lower); ("lte", upper)])])]))
          this
    | _ =>
        Err {| name := "ConvertError";
               message := "Invalid filter.  Unable to convert.";
               data := NoData |}
    end in
  let must_not f := JObj [("bool", JObj [("must_not", f)])] in
  _build_clause (clause_of (JTarget t) "between" o) this = outcome id
  ∧ _build_clause (clause_of o "between" (JTarget t)) this = outcome id
  ∧ _build_clause (clause_of (JTarget t) "nbetween" o) this = outcome must_not
  ∧ _build_clause (clause_of o "nbetween" (JTarget t)) this = outcome must_not.
Proof.
  cbn zeta.
  split_and!; destruct o; try discriminate Hlit; clause_eq.
Qed.

(** [in] and [nin] on a target [t] and a non-target [o], in either
    operand order: an array gives [{ terms: { [key]: array } }], [key] the
    canonical key of [t] and the array as it is, and [nin] gives that under
    [{ bool: { must_not: ... } }]; when the key is [__proto__] the object
    under [terms] is empty.  Anything but an array fails with the default
    [ConvertError] before the target is resolved. *)
Theorem in_emits_terms_verbatim (t : Target) (o : jsval) (this : Builder)
    (Hlit : is_Target o = false) :
  let outcome wrap :=
    match o with
    | JArr items =>
        with_key t
          (λ key,
             wrap
               (JObj [("terms",
                        if String.eqb key "__proto__" then JObj []
                        else JObj [(key, JArr items)])]))
          this
    | _ =>
        Err {| name := "ConvertError";
               message := "Invalid filter.  Unable to convert.";
               data := NoData |}
    end in
  let must_not f := JObj [("bool", JObj [("must_not", f)])] in
  _build_clause (clause_of (JTarget t) "in" o) this = outcome id
  ∧ _build_clause (clause_of o "in" (JTarget t)) this = outcome id
  ∧ _build_clause (clause_of (JTarget t) "nin" o) this = outcome must_not
  ∧ _build_clause (clause_of o "nin" (JTarget t)) this = outcome must_not.
Proof.
  cbn zeta.
  split_and!; destruct o; try discriminate Hlit; clause_eq.
Qed.

(** A clause with a target on exactly one side and an operator that is
    none of the twelve fails with a [ConvertError] whose message is
    [undefined] followed by the operator ([msg.unknownOp] is not defined in
    [lib/convert.js]), not the default message.  It does so from any
    builder: the target is not resolved, so not even a denied field is
    reported. *)
Theorem unknown_operator_fails_unresolved (s o : jsval) (op : string)
    (this : Builder)
    (Hone : xorb (is_Target s) (is_Target o) = true)
    (Hop : op ∉ operators) :
  _build_clause (clause_of s op o) this =
    Err (errors.ConvertError (Some ("undefined" +:+ op)))
  ∧ errors.ConvertError (Some ("undefined" +:+ op)) ≠ errors.ConvertError None.
Proof.
  assert (∀ x, x ∈ operators → String.eqb op x = false) as Hne.
  { intros x Hx. apply String.eqb_neq. intros ->. by apply Hop. }
  split.
  - unfold _build_clause, normalizeClause.
    cbn [clause_of subject object operator type].
    destruct (is_Target s) eqn:Hs, (is_Target o) eqn:Ho;
      try discriminate Hone; cbn [andb negb subject object operator type];
      rewrite !Hne by (unfold operators; set_solver);
      cbn [type]; rewrite ?Hne by (unfold operators; set_solver);
      reflexivity.
  - unfold errors.ConvertError. cbn. by intros [=].
Qed.

(** ** How a walk fails and ends *)

Lemma fragments_app pre post this :
  fragments (pre ++ post) this =
    match fragments pre this with
    | Err e => Err e
    | Ok (fs, this1) =>
        match fragments post this1 with
        | Err e => Err e
        | Ok (gs, this2) => Ok (fs ++ gs, this2)
        end
    end.
Proof.
  revert this. induction pre as [|s pre IH]; intros this.
  - cbn. unfold ret. by destruct (fragments post this) as [[]|].
  - cbn [app fragments]. unfold bind, ret.
    destruct (_build_statement _build s this) as [[f this0]|e]; [|done].
    rewrite IH.
    destruct (fragments pre this0) as [[fs this1]|e]; [|done].
    by destruct (fragments post this1) as [[gs this2]|e].
Qed.

(** The first statement that fails ends the walk with its error: when the
    statements before it compile, [_build] fails with that error whatever
    follows, and so does [convert].  A statement whose value is neither a
    [Filter] nor a [Clause] fails with the default [ConvertError]. *)
Theorem first_failing_statement_aborts (pre post : list Statement)
    (s : Statement) (this this1 : Builder) (fs : list jsval) (e : error)
    (Hpre : fragments pre this = Ok (fs, this1))
    (Hs : _build_statement _build s this1 = Err e) :
  _build (mkFilter (pre ++ s :: post)) this = Err e
  ∧ (∀ strategy,
       this = start (mkFilter (pre ++ s :: post)) strategy →
       convert (FilterInstance (mkFilter (pre ++ s :: post)))
         (Some (StrategyInstance strategy)) = Err e)
  ∧ (∀ c v post',
       _build (mkFilter (pre ++ mkStatement c (VOther v) :: post')) this =
         Err (errors.ConvertError None)).
Proof.
  assert (∀ s' post' e',
            _build_statement _build s' this1 = Err e' →
            _build (mkFilter (pre ++ s' :: post')) this = Err e') as Habort.
  { intros s' post' e' Hs'. cbn [_build].
    rewrite _build_loop_fragments, fragments_app, Hpre.
    cbn [fragments]. unfold bind. by rewrite Hs'. }
  split_and!.
  - by apply Habort.
  - intros strategy ->. rewrite convert_walk. by rewrite (Habort s post e Hs).
  - intros c v post'. by apply Habort.
Qed.

(** The empty filter converts to [{ filter: { bool: { must: [] } } }] with
    no fields when the strategy requires nothing, and fails with the
    [RequiredFieldError] of the first required field otherwise. *)
Theorem empty_filter_converts (strategy : Strategy) :
  convert (FilterInstance (mkFilter [])) (Some (StrategyInstance strategy)) =
    match require strategy with
    | [] => Ok {| Converted.fields := [];
                  Converted.value := obj1 "filter" (bool_must []) |}
    | req :: _ => Err (errors.RequiredFieldError req)
    end.
Proof.
  rewrite convert_walk.
  change (_build (mkFilter []) (start (mkFilter []) strategy))
    with (Ok (bool_must [], start (mkFilter []) strategy)).
  destruct (require strategy) as [|req rest]; [reflexivity|].
  cbn [validate_loop _fields start].
  rewrite (bool_decide_eq_false_2 (req ∈ ∅)) by set_solver. reflexivity.
Qed.

(** ** Constructing a strategy *)

Lemma createTargetSet_loop_strings nm l : ∀ set,
  createTargetSet_loop nm (JStr <$> l) set = Ok (set ∪ list_to_set l).
Proof.
  induction l as [|x l IH]; intros set; cbn.
  - f_equal. set_solver.
  - rewrite IH. f_equal. set_solver.
Qed.

Lemma string_members_array items l :
  string_members (JArr items) = Some l → items = JStr <$> l.
Proof.
  cbn. revert l. induction items as [|v items IH]; intros l; cbn.
  - by intros [= <-].
  - destruct v; try discriminate. cbn.
    destruct (mapM _ items) as [l'|] eqn:Hm; [|discriminate].
    cbn. intros [= <-]. cbn. f_equal. by apply IH.
Qed.

Lemma string_members_none items :
  string_members (JArr items) = None → ∃ v, v ∈ items ∧ is_string v = false.
Proof.
  cbn. induction items as [|v items IH]; cbn; [done|].
  destruct (is_string v) eqn:Hv.
  - destruct v; try discriminate. cbn.
    destruct (mapM _ items) as [l'|] eqn:Hm; [done|].
    intros _. destruct IH as (w & Hw & Hws); [done|]. exists w. set_solver.
  - intros _. exists v. set_solver.
Qed.

Lemma createTargetSet_members value nm l :
  string_members value = Some l →
  createTargetSet value nm = Ok (list_to_set l).
Proof.
  destruct value; try discriminate.
  - by intros [= <-].
  - by intros [= <-].
  - intros ->%string_members_array. unfold createTargetSet. cbn.
    rewrite createTargetSet_loop_strings. f_equal. set_solver.
Qed.

Lemma createTargetSet_no_members value nm :
  string_members value = None →
  ∃ e, createTargetSet value nm = Err e ∧ name e = "TypeError".
Proof.
  intros Hnone.
  assert (∃ e, createTargetSet value nm = Err e) as [e He].
  { destruct value; try discriminate; try (by eexists).
    apply string_members_none in Hnone as (v & Hv & Hvs).
    unfold createTargetSet. cbn.
    by eapply createTargetSet_loop_nonstring. }
  exists e. split; [done|]. by eapply createTargetSet_TypeError.
Qed.

Lemma size_list_to_set_pos (l : list string) :
  0 < size (list_to_set l : gset string) ↔ l ≠ [].
Proof.
  destruct l as [|x l].
  - cbn. rewrite size_empty. split; [lia|done].
  - split; [done|]. intros _.
    destruct (decide (size (list_to_set (x :: l) : gset string) = 0)) as [H0|];
      [|lia].
    apply size_empty_inv in H0. set_solver.
Qed.

(** What a constructed strategy was constructed from. *)
Lemma Strategy_new_ok_inv (s : Settings.t) (strategy : Strategy) :
  Strategy_new (ArgObject s) = Ok strategy →
  ∃ a d,
    string_members (Settings.allow s) = Some a
    ∧ string_members (Settings.deny s) = Some d
    ∧ (a = [] ∨ d = [])
    ∧ strategy = {| allow := list_to_set a; deny := list_to_set d;
                    require := default [] (Settings.require s) |}.
Proof.
  cbn [Strategy_new].
  destruct (string_members (Settings.allow s)) as [a|] eqn:Ha.
  2:{ destruct (createTargetSet_no_members _ "allow" Ha) as (e & -> & _).
      discriminate. }
  rewrite (createTargetSet_members _ _ _ Ha).
  destruct (string_members (Settings.deny s)) as [d|] eqn:Hd.
  2:{ destruct (createTargetSet_no_members _ "deny" Hd) as (e & -> & _).
      discriminate. }
  rewrite (createTargetSet_members _ _ _ Hd).
  destruct (bool_decide (0 < size (list_to_set a))) eqn:Hsa;
    destruct (bool_decide (0 < size (list_to_set d))) eqn:Hsd;
    cbn [andb]; try discriminate;
    intros [= <-]; exists a, d; split_and!; try done.
  - right. apply bool_decide_eq_false in Hsd.
    destruct d; [done|]. exfalso. apply Hsd. by apply size_list_to_set_pos.
  - left. apply bool_decide_eq_false in Hsa.
    destruct a; [done|]. exfalso. apply Hsa. by apply size_list_to_set_pos.
  - left. apply bool_decide_eq_false in Hsa.
    destruct a; [done|]. exfalso. apply Hsa. by apply size_list_to_set_pos.
Qed.

(** What [new Strategy(settings)] does with a settings object, by what its
    [allow] and [deny] hold.  When each is absent ([null] or [undefined])
    or an array of strings, and not both have members, the strategy is
    constructed with exactly those strings in its sets (an empty array
    counts as absent) and with [require] as given, or empty when absent;
    when both have members the constructor throws the [TypeError] about
    [allow] and [deny]; when either is anything else (not an array, or an
    array with a member that is not a string) it throws a [TypeError]. *)
Theorem Strategy_new_by_members (s : Settings.t) :
  match string_members (Settings.allow s), string_members (Settings.deny s) with
  | Some a, Some d =>
      Strategy_new (ArgObject s) =
        match a, d with
        | _ :: _, _ :: _ => Err (TypeError strategy_msg.argSettingsAllowDeny)
        | _, _ =>
            Ok {| allow := list_to_set a; deny := list_to_set d;
                  require := default [] (Settings.require s) |}
        end
  | _, _ =>
      ∃ e, Strategy_new (ArgObject s) = Err e ∧ name e = "TypeError"
  end.
Proof.
  destruct (string_members (Settings.allow s)) as [a|] eqn:Ha.
  - destruct (string_members (Settings.deny s)) as [d|] eqn:Hd.
    + cbn. rewrite (createTargetSet_members _ _ _ Ha).
      rewrite (createTargetSet_members _ _ _ Hd).
      destruct a as [|x a].
      { rewrite (bool_decide_eq_false_2 (0 < size _))
          by (rewrite size_list_to_set_pos; naive_solver).
        reflexivity. }
      rewrite (bool_decide_eq_true_2 (0 < size (list_to_set (x :: a))))
        by (by rewrite size_list_to_set_pos).
      destruct d as [|y d].
      { rewrite (bool_decide_eq_false_2 (0 < size _))
          by (rewrite size_list_to_set_pos; naive_solver).
        reflexivity. }
      rewrite (bool_decide_eq_true_2 (0 < size (list_to_set (y :: d))))
        by (by rewrite size_list_to_set_pos).
      reflexivity.
    + destruct (createTargetSet_no_members _ "deny" Hd) as (e & He & Hn).
      exists e. split; [|done]. cbn.
      by rewrite (createTargetSet_members _ _ _ Ha), He.
  - destruct (createTargetSet_no_members _ "allow" Ha) as (e & He & Hn).
    exists e. split; [|done]. cbn. by rewrite He.
Qed.

(** A constructed strategy holds what it was given: a field is in its
    [allow] set exactly when it is a member of the [allow] array of the
    settings, likewise for [deny], duplicates counting once; its [require]
    list is the one of the settings, empty when absent; and one of its two
    sets is empty. *)
Theorem Strategy_new_holds_settings (s : Settings.t) (strategy : Strategy)
    (Hnew : Strategy_new (ArgObject s) = Ok strategy) :
  (∀ f, f ∈ allow strategy ↔
          ∃ items, Settings.allow s = JArr items ∧ JStr f ∈ items)
  ∧ (∀ f, f ∈ deny strategy ↔
            ∃ items, Settings.deny s = JArr items ∧ JStr f ∈ items)
  ∧ require strategy = default [] (Settings.require s)
  ∧ (size (allow strategy) = 0 ∨ size (deny strategy) = 0).
Proof.
  assert (∀ value l f,
            string_members value = Some l →
            f ∈ l ↔ ∃ items, value = JArr items ∧ JStr f ∈ items) as Hmem.
  { intros value l f Hl. destruct value; try discriminate.
    - injection Hl as <-. split; [by intros ?%elem_of_nil|by intros (? & ? & _)].
    - injection Hl as <-. split; [by intros ?%elem_of_nil|by intros (? & ? & _)].
    - apply string_members_array in Hl as ->. split.
      + intros Hf. eexists. split; [done|]. by apply list_elem_of_fmap_2.
      + intros (items' & [= <-] & Hf).
        apply list_elem_of_fmap in Hf as (g & [= ->] & Hg). done. }
  destruct (Strategy_new_ok_inv s strategy Hnew) as (a & d & Ha & Hd & Hex & ->).
  cbn [allow deny require]. split_and!.
  - intros f. rewrite elem_of_list_to_set. by apply Hmem.
  - intros f. rewrite elem_of_list_to_set. by apply Hmem.
  - reflexivity.
  - destruct Hex as [-> | ->]; [left|right]; apply size_empty.
Qed.

(** ** What a walk resolves *)

Lemma _target_checked t this :
  _target t this =
    match target_check (_strategy this) t with
    | Some e => Err e
    | None => Ok (path_key "" (path t), register (field t) this)
    end.
Proof.
  unfold _target, target_check.
  destruct (_ && _); [done|]. destruct (_ && _); [done|].
  case_bool_decide as Hlegal.
  - by rewrite _target_path_legal.
  - by rewrite _target_path_illegal.
Qed.

Lemma target_check_permitted s t :
  target_check s t = None ↔ permitted s (field t) ∧ Forall legal (path t).
Proof.
  unfold target_check, permitted.
  assert (field t ∈ deny s → 0 < size (deny s)) as Hpos.
  { intros Hin. destruct (decide (size (deny s) = 0)) as [H0|]; [|lia].
    apply size_empty_inv in H0. set_solver. }
  repeat case_bool_decide; cbn; split; try done; try naive_solver lia.
Qed.

Lemma clause_target_list_shape (c : Clause) :
  clause_target_list c =
    (if is_Target (subject c) then [as_Target (subject c)] else [])
    ++ (if is_Target (object c) then [as_Target (object c)] else []).
Proof. unfold clause_target_list. by destruct (subject c), (object c). Qed.

Lemma clause_targets_fields (c : Clause) :
  clause_targets c = field <$> clause_target_list c.
Proof.
  unfold clause_targets, clause_target_list.
  by destruct (subject c), (object c).
Qed.

Lemma referenced_fields filter :
  referenced filter = field <$> referenced_targets filter.
Proof.
  induction filter as [stmts IH] using Filter_induction.
  cbn [referenced referenced_targets].
  induction IH as [|s rest Hs _ IHrest]; [done|].
  cbn [flat_map]. rewrite fmap_app, IHrest. f_equal.
  unfold holds_of_subfilter in Hs.
  destruct (statement_value s); [done|apply clause_targets_fields|done].
Qed.

Section resolves.

Lemma resolves_ret {A} (a : A) : resolves (ret a) [].
Proof. intros this. cbn. by split. Qed.

Lemma resolves_throw {A} m ts :
  resolves (@throw A (errors.ConvertError m)) ts.
Proof. intros this. by left. Qed.

Lemma resolves_bind {A B} (m : M A) (k : A → M B) ts1 ts2 :
  resolves m ts1 → (∀ a, resolves (k a) ts2) → resolves (bind m k) (ts1 ++ ts2).
Proof.
  intros Hm Hk this. unfold bind. specialize (Hm this).
  destruct (m this) as [[a this1]|e].
  - destruct Hm as [-> H1]. specialize (Hk a (registered (field <$> ts1) this)).
    rewrite registered_strategy in Hk.
    destruct (k a _) as [[b this2]|e].
    + destruct Hk as [-> H2]. split.
      * by rewrite fmap_app, registered_app.
      * by apply Forall_app.
    + destruct Hk as [Hc|(t & Ht & Hcheck)]; [by left|].
      right. exists t. split; [|done]. set_solver.
  - destruct Hm as [Hc|(t & Ht & Hcheck)]; [by left|].
    right. exists t. split; [|done]. set_solver.
Qed.

Lemma resolves_bind_ret {A B} (m : M A) (f : A → B) ts :
  resolves m ts → resolves (a <- m ;; ret (f a)) ts.
Proof.
  intros Hm. rewrite <- (app_nil_r ts).
  apply resolves_bind; [assumption|]. intros a. apply resolves_ret.
Qed.

Lemma resolves_target t : resolves (_target t) [t].
Proof.
  intros this. rewrite _target_checked.
  destruct (target_check _ t) as [e|] eqn:Hcheck.
  - right. exists t. split; [set_solver|done].
  - split; [done|]. by constructor.
Qed.

Lemma resolves_scriptOperator {A} op (k : string → M A) ts :
  (∀ sym, resolves (k sym) ts) →
  resolves (sym <- lift (scriptOperator op) ;; k sym) ts.
Proof.
  intros Hk this. unfold bind, lift, scriptOperator.
  repeat (case_eqb; [apply Hk|]). by left.
Qed.

Ltac resolve :=
  repeat first
    [ apply resolves_bind_ret
    | apply resolves_target
    | apply resolves_throw
    | match goal with
      | |- resolves (if ?b then _ else _) _ => destruct b
      | |- resolves (match ?x with _ => _ end) _ => destruct x
      end ].

Lemma resolves_exists c : resolves (_exists c) [as_Target (subject c)].
Proof. unfold _exists. resolve. Qed.

Lemma resolves_comparison c : resolves (_comparison c) [as_Target (subject c)].
Proof. unfold _comparison. resolve. Qed.

Lemma resolves_range c : resolves (_range c) [as_Target (subject c)].
Proof. unfold _range. resolve. Qed.

Lemma resolves_eq c : resolves (_eq c) [as_Target (subject c)].
Proof.
  unfold _eq. resolve;
    try first [apply resolves_exists|apply resolves_comparison].
Qed.

Lemma resolves_like c : resolves (_like c) [as_Target (subject c)].
Proof. unfold _like. resolve. Qed.

Lemma resolves_between c : resolves (_between c) [as_Target (subject c)].
Proof. unfold _between. resolve. Qed.

Lemma resolves_in c : resolves (_in c) [as_Target (subject c)].
Proof. unfold _in. resolve; try apply resolves_comparison. Qed.

Lemma resolves_dispatch (clause : Clause) (unknown : option string) :
  let t := type (operator clause) in
  resolves
    (if String.eqb t "eq" then _eq clause
     else if String.eqb t "neq" then _neq clause
     else if String.eqb t "gt" then _gt clause
     else if String.eqb t "gte" then _gte clause
     else if String.eqb t "lt" then _lt clause
     else if String.eqb t "lte" then _lte clause
     else if String.eqb t "like" then _like clause
     else if String.eqb t "nlike" then _nlike clause
     else if String.eqb t "between" then _between clause
     else if String.eqb t "nbetween" then _nbetween clause
     else if String.eqb t "in" then _in clause
     else if String.eqb t "nin" then _nin clause
     else throw (errors.ConvertError unknown))
    [as_Target (subject clause)].
Proof.
  cbn zeta.
  unfold _neq, _gt, _gte, _lt, _lte, _nlike, _nbetween, _nin.
  resolve;
    try first [ apply resolves_exists | apply resolves_range
              | apply resolves_eq | apply resolves_like
              | apply resolves_between | apply resolves_in ].
Qed.

Lemma resolves_build_clause (sval : Clause) :
  resolves (_build_clause sval) (clause_target_list sval).
Proof.
  rewrite clause_target_list_shape. unfold _build_clause.
  destruct (is_Target (subject sval)) eqn:Hs,
    (is_Target (object sval)) eqn:Ho; cbn [andb negb].
  - unfold _scriptTargets.
    apply resolves_bind; [apply resolves_target|]. intros s.
    apply resolves_scriptOperator. intros sym.
    apply resolves_bind_ret, resolves_target.
  - replace (normalizeClause sval) with sval
      by (unfold normalizeClause; by rewrite Ho).
    rewrite app_nil_r. apply resolves_dispatch.
  - assert (object sval = subject (normalizeClause sval)) as ->
      by (unfold normalizeClause; by rewrite Ho).
    apply resolves_dispatch.
  - intros this. unfold lift, scriptLiterals, scriptOperator.
    repeat (case_eqb; [by split|]). by left.
Qed.

Lemma resolves_build_loop (_build' : Filter → M jsval) stmts :
  Forall
    (holds_of_subfilter (λ sub, resolves (_build' sub) (referenced_targets sub)))
    stmts →
  ∀ groups must,
    resolves (_build_loop _build' stmts groups must)
      (flat_map statement_target_list stmts).
Proof.
  induction 1 as [|s rest Hs _ IH]; intros groups must.
  - cbn. destruct (bool_decide _); apply resolves_ret.
  - cbn [_build_loop flat_map].
    destruct (String.eqb _ _ && _);
      (apply resolves_bind; [|intros; apply IH]);
      unfold _build_statement, statement_target_list, holds_of_subfilter in *;
      destruct (statement_value s);
      first [ assumption | apply resolves_build_clause | apply resolves_throw ].
Qed.

Lemma resolves_build filter :
  resolves (_build filter) (referenced_targets filter).
Proof.
  induction filter as [stmts IH] using Filter_induction.
  cbn [_build referenced_targets]. by apply resolves_build_loop.
Qed.

End resolves.

(** The checks a successful walk from a fresh builder has passed. *)
Lemma walk_governed (filter : Filter) (strategy : Strategy) (v : jsval)
    (this' : Builder) :
  _build filter (start filter strategy) = Ok (v, this') →
  Forall (λ t, permitted strategy (field t) ∧ Forall legal (path t))
    (referenced_targets filter)
  ∧ (∀ f, f ∈ fields this' → permitted strategy f)
  ∧ (∀ f, f ∈ _fields this' ↔ f ∈ fields this').
Proof.
  intros Hb.
  pose proof (resolves_build filter (start filter strategy)) as Hres.
  rewrite Hb in Hres. destruct Hres as [-> Hchecks].
  cbn [_strategy start] in Hchecks.
  rewrite <- referenced_fields.
  destruct (walk_fields filter strategy) as (Hf & Hsync & _).
  assert (Forall (λ t, permitted strategy (field t) ∧ Forall legal (path t))
            (referenced_targets filter)) as Hgov.
  { eapply Forall_impl; [exact Hchecks|]. intros t Ht.
    by apply target_check_permitted. }
  split_and!; [exact Hgov| |exact Hsync].
  intros f. rewrite Hf, first_occurrences_elem, referenced_fields.
  intros (t & -> & Ht)%list_elem_of_fmap.
  rewrite Forall_forall in Hgov. by apply Hgov.
Qed.

(** A conversion that succeeds has passed every check.  Each target in
    subject or object position anywhere in the filter has a field the
    strategy lets through (in the allow set when that is not empty, and
    not in the deny set) and a path without an illegal segment; so every
    field returned is one the strategy lets through, and every required
    field is among the fields returned. *)
Theorem successful_conversion_is_governed (filter : Filter)
    (strategy : Strategy) (r : Converted.t)
    (Hconvert :
       convert (FilterInstance filter) (Some (StrategyInstance strategy)) =
         Ok r) :
  Forall (λ t, permitted strategy (field t) ∧ Forall legal (path t))
    (referenced_targets filter)
  ∧ (∀ f, f ∈ Converted.fields r → permitted strategy f)
  ∧ (∀ req, req ∈ require strategy → req ∈ Converted.fields r).
Proof.
  rewrite convert_walk in Hconvert.
  destruct (_build filter _) as [[v this']|e] eqn:Hb; [|discriminate].
  destruct (validate_loop _ _) as [[]|] eqn:Hv; [|discriminate].
  injection Hconvert as <-. cbn [Converted.fields].
  destruct (walk_governed _ _ _ _ Hb) as (Hgov & Hfields & Hsync).
  split_and!; [exact Hgov|exact Hfields|].
  intros req Hreq. apply Hsync.
  by apply (proj1 (validate_loop_ok _ _) Hv).
Qed.

(** Every error of a conversion has its cause in the filter or the
    strategy: it is a [ConvertError], or the governance or path error of a
    target that stands in subject or object position somewhere in the
    filter, with the field or target at fault as its data, or the
    [RequiredFieldError] of a required field that no target of the filter
    refers to. *)
Theorem conversion_error_has_cause (filter : Filter) (strategy : Strategy)
    (e : error)
    (Hconvert :
       convert (FilterInstance filter) (Some (StrategyInstance strategy)) =
         Err e) :
  caused_by filter strategy e.
Proof.
  unfold caused_by. rewrite convert_walk in Hconvert.
  pose proof (resolves_build filter (start filter strategy)) as Hres.
  destruct (_build filter _) as [[v this']|e'].
  - destruct Hres as [-> _].
    destruct (validate_loop _ _) as [|e'] eqn:Hv; [discriminate|].
    injection Hconvert as ->.
    apply validate_loop_err in Hv as (before & req & after & Hreq & _ & Hmiss & ->).
    do 4 right. exists req. split_and!; [rewrite Hreq; set_solver| |done].
    destruct (walk_fields filter strategy) as (Hf & Hsync & _).
    rewrite <- referenced_fields in Hmiss.
    by rewrite Hsync, Hf, first_occurrences_elem in Hmiss.
  - injection Hconvert as ->. cbn [_strategy start] in Hres.
    destruct Hres as [Hc|(t & Ht & Hcheck)]; [by left|].
    unfold target_check in Hcheck. right.
    destruct (_ && _) eqn:Hallow in Hcheck.
    { injection Hcheck as <-. left. exists t.
      apply andb_prop in Hallow as [Hpos Hin].
      apply bool_decide_eq_true in Hpos. apply negb_true_iff in Hin.
      apply bool_decide_eq_false in Hin. done. }
    right. destruct (_ && _) eqn:Hdeny in Hcheck.
    { injection Hcheck as <-. left. exists t.
      apply andb_prop in Hdeny as [_ Hin].
      apply bool_decide_eq_true in Hin. done. }
    right. left. case_bool_decide as Hlegal; [discriminate|].
    injection Hcheck as <-. by exists t.
Qed.

(** ** What the strategy leaves alone *)

Lemma agrees_ret {A} (a : A) : agrees (ret a).
Proof. intros ?????? [= <- _] [= <- _]. reflexivity. Qed.

Lemma agrees_throw {A} e : agrees (@throw A e).
Proof. intros ?????? [=]. Qed.

Lemma agrees_lift {A} (r : result A) : agrees (lift r).
Proof.
  intros this1 this2 a1 a2 ? ?. unfold lift.
  destruct r; [|done]. by intros [= <- _] [= <- _].
Qed.

Lemma agrees_bind {A B} (m : M A) (k : A → M B) :
  agrees m → (∀ a, agrees (k a)) → agrees (bind m k).
Proof.
  intros Hm Hk this1 this2 b1 b2 this1' this2'. unfold bind.
  destruct (m this1) as [[a1 t1]|] eqn:H1; [|done].
  destruct (m this2) as [[a2 t2]|] eqn:H2; [|done].
  rewrite (Hm _ _ _ _ _ _ H1 H2). apply Hk.
Qed.

Lemma agrees_target t : agrees (_target t).
Proof.
  intros this1 this2 k1 k2 ? ?. rewrite !_target_checked.
  destruct (target_check _ t); [done|].
  destruct (target_check _ t); [done|].
  by intros [= <- _] [= <- _].
Qed.

Ltac agree :=
  repeat first
    [ apply agrees_ret
    | apply agrees_target
    | apply agrees_throw
    | apply agrees_lift
    | apply agrees_bind; [|intros]
    | match goal with
      | |- agrees (if ?b then _ else _) => destruct b
      | |- agrees (match ?x with _ => _ end) => destruct x
      end ].

Lemma agrees_build_clause (sval : Clause) : agrees (_build_clause sval).
Proof.
  unfold _build_clause, _scriptTargets, _eq, _neq, _gt, _gte, _lt, _lte,
    _like, _nlike, _between, _nbetween, _in, _nin.
  unfold _eq, _like, _between, _in, _exists, _comparison, _range.
  unfold _exists, _comparison.
  agree.
Qed.

Lemma agrees_build_loop (_build' : Filter → M jsval) stmts :
  Forall (holds_of_subfilter (λ sub, agrees (_build' sub))) stmts →
  ∀ groups must, agrees (_build_loop _build' stmts groups must).
Proof.
  induction 1 as [|s rest Hs _ IH]; intros groups must.
  - cbn. destruct (bool_decide _); apply agrees_ret.
  - cbn [_build_loop].
    destruct (String.eqb _ _ && _);
      (apply agrees_bind; [|intros; apply IH]);
      unfold _build_statement, holds_of_subfilter in *;
      destruct (statement_value s);
      first [ assumption | apply agrees_build_clause | apply agrees_throw ].
Qed.

Lemma agrees_build filter : agrees (_build filter).
Proof.
  induction filter as [stmts IH] using Filter_induction.
  cbn [_build]. by apply agrees_build_loop.
Qed.

(** The strategy decides whether a filter converts, not what it converts
    to: two conversions of the same filter that succeed, under whatever
    strategies, given or omitted, return the same fields and the same
    document. *)
Theorem strategy_does_not_alter_output (filter : FilterArg)
    (strategy1 strategy2 : option StrategyArg) (r1 r2 : Converted.t)
    (H1 : convert filter strategy1 = Ok r1)
    (H2 : convert filter strategy2 = Ok r2) :
  r1 = r2.
Proof.
  destruct filter as [f|v]; [|discriminate].
  assert (∀ strategy r,
            convert (FilterInstance f) strategy = Ok r →
            ∃ s v this',
              _build f (start f s) = Ok (v, this')
              ∧ r = {| Converted.fields := first_occurrences (referenced f);
                       Converted.value := obj1 "filter" v |}) as Hrun.
  { intros strategy r Hr.
    assert (∃ s, convert (FilterInstance f) (Some (StrategyInstance s)) = Ok r)
      as [s Hs].
    { eapply convert_ok_strategy; eassumption. }
    rewrite convert_walk in Hs.
    destruct (_build f _) as [[v this']|e] eqn:Hb; [|discriminate].
    destruct (validate_loop _ _); [|discriminate].
    injection Hs as <-. exists s, v, this'. split; [done|].
    apply _build_registers in Hb as ->.
    by destruct (walk_fields f s) as (-> & _ & _). }
  destruct (Hrun _ _ H1) as (s1 & v1 & t1 & Hb1 & ->).
  destruct (Hrun _ _ H2) as (s2 & v2 & t2 & Hb2 & ->).
  by rewrite (agrees_build f _ _ _ _ _ _ Hb1 Hb2).
Qed.

(** ** Resolving targets *)

Lemma register_idem f this : register f (register f this) = register f this.
Proof.
  unfold register at 2 3. case_bool_decide as Hf.
  - unfold register. by rewrite bool_decide_eq_true_2.
  - unfold register. cbn [_fields].
    rewrite bool_decide_eq_true_2 by set_solver. reflexivity.
Qed.

(** Once a target has been resolved, resolving it again, or any target
    with the same field whose resolution succeeds, changes nothing in the
    builder; and the key returned depends on the path of the target
    alone, not on the builder. *)
Theorem resolving_again_changes_nothing (t : Target) (this this' : Builder)
    (key : string) (Hfirst : _target t this = Ok (key, this')) :
  _target t this' = Ok (key, this')
  ∧ (∀ t' key' this'',
       field t' = field t → _target t' this' = Ok (key', this'') →
       this'' = this')
  ∧ key = path_key "" (path t)
  ∧ (∀ other key' other', _target t other = Ok (key', other') → key' = key).
Proof.
  rewrite _target_checked in Hfirst.
  destruct (target_check _ t) eqn:Hcheck; [discriminate|].
  revert Hfirst. intros [= <- <-]. split_and!.
  - rewrite _target_checked, register_strategy, Hcheck.
    by rewrite register_idem.
  - intros t' key' this'' Hfield. rewrite _target_checked.
    destruct (target_check _ t'); [done|]. intros [= _ <-].
    by rewrite Hfield, register_idem.
  - reflexivity.
  - intros other key' other'. rewrite _target_checked.
    destruct (target_check (_strategy other) t); [done|]. by intros [= <- _].
Qed.

(** Under a strategy that does not stop it, a target whose path does not
    start with an empty segment resolves to its segments, each as a
    string, joined with dots; its field is registered. *)
Theorem canonical_key_joins_segments (t : Target) (this : Builder)
    (Hcheck : target_check (_strategy this) t = None)
    (Hhead : head (stringified <$> path t) ≠ Some "") :
  _target t this =
    Ok (join_dot (stringified <$> path t), register (field t) this).
Proof.
  rewrite _target_checked, Hcheck. do 2 f_equal.
  destruct (path t) as [|seg rest]; [reflexivity|].
  apply path_key_join. cbn in Hhead. congruence.
Qed.

Lemma has_hyphens_cons c s :
  has_hyphens (String c s) =
    match s with
    | String c' _ => (Ascii.eqb c "-" && Ascii.eqb c' "-") || has_hyphens s
    | EmptyString => false
    end.
Proof. reflexivity. Qed.

Lemma digits_no_illegal_char d :
  existsb (λ c, bool_decide (c ∈ invalidTarget_chars))
    (list_ascii_of_string (NilEmpty.string_of_uint d)) = false.
Proof.
  induction d; cbn [NilEmpty.string_of_uint list_ascii_of_string existsb];
    [reflexivity|..]; rewrite IHd, orb_false_r; vm_compute; reflexivity.
Qed.

Lemma digits_no_hyphens d : has_hyphens (NilEmpty.string_of_uint d) = false.
Proof.
  induction d; cbn [NilEmpty.string_of_uint]; [reflexivity|..];
    rewrite has_hyphens_cons; destruct (NilEmpty.string_of_uint d);
    try reflexivity; exact IHd.
Qed.

Lemma decimal_legal n : invalidTarget_test (decimal n) = false.
Proof.
  unfold invalidTarget_test, decimal, NilZero.string_of_uint.
  destruct (N.to_uint n) eqn:Hn; [reflexivity|..]; rewrite <- Hn;
    by rewrite digits_no_illegal_char, digits_no_hyphens.
Qed.

(** A segment whose string form is the decimal numeral of a natural
    number, as that of an array index is, is never illegal, be the segment a
    number or a string: the numeral holds no character of the
    [invalidTarget] class and no hyphen.  The loop over the path goes on
    past it, with the numeral added to the key. *)
Theorem index_segments_are_legal (n : N) :
  segment_toString (SegNum (decimal n)) = decimal n
  ∧ legal (SegNum (decimal n))
  ∧ legal (SegStr (decimal n))
  ∧ ∀ target rest val,
      _target_path target (SegNum (decimal n) :: rest) val =
        _target_path target rest
          ((if bool_decide (0 < String.length val) then val +:+ "." else val)
             +:+ decimal n).
Proof.
  pose proof (decimal_legal n) as Hlegal.
  split_and!; [reflexivity|exact Hlegal|exact Hlegal|].
  intros target rest val. cbn [_target_path segment_toString].
  by rewrite Hlegal.
Qed.

Lemma list_ascii_of_string_app s1 s2 :
  list_ascii_of_string (s1 +:+ s2) =
    list_ascii_of_string s1 ++ list_ascii_of_string s2.
Proof.
  induction s1 as [|c s1 IH]; [done|].
  rewrite append_cons. cbn. by rewrite IH.
Qed.

Lemma has_hyphens_grow c s : has_hyphens s = true → has_hyphens (String c s) = true.
Proof.
  intros Hs. rewrite has_hyphens_cons. destruct s; [done|].
  rewrite Hs. apply orb_true_r.
Qed.

Lemma has_hyphens_app_l s q : has_hyphens s = true → has_hyphens (s +:+ q) = true.
Proof.
  induction s as [|c s IH]; [done|].
  rewrite has_hyphens_cons. destruct s as [|c' s']; [done|].
  intros [Hcc|Hs]%orb_prop.
  - rewrite !append_cons, has_hyphens_cons, Hcc. reflexivity.
  - rewrite append_cons. apply has_hyphens_grow, IH, Hs.
Qed.

Lemma has_hyphens_app_r p s : has_hyphens s = true → has_hyphens (p +:+ s) = true.
Proof.
  intros Hs. induction p as [|c p IH]; [done|].
  rewrite append_cons. by apply has_hyphens_grow.
Qed.

(** The [invalidTarget] expression is searched for anywhere in a segment:
    a segment that contains an illegal segment is illegal, and so is one
    that holds any character of the class or two hyphens in a row. *)
Theorem illegal_anywhere_in_segment (p s q : string)
    (Hs : invalidTarget_test s = true) :
  invalidTarget_test (p +:+ s +:+ q) = true
  ∧ (∀ c a b, c ∈ invalidTarget_chars →
              invalidTarget_test (a +:+ String c b) = true)
  ∧ (∀ a b, invalidTarget_test (a +:+ "--" +:+ b) = true).
Proof.
  assert (∀ p s q, invalidTarget_test s = true →
                   invalidTarget_test (p +:+ s +:+ q) = true) as Hgrow.
  { clear. intros p s q. unfold invalidTarget_test.
    rewrite !list_ascii_of_string_app, !existsb_app.
    intros [Hc|Hh]%orb_prop.
    - rewrite Hc. by rewrite orb_true_r.
    - rewrite (has_hyphens_app_r p _ (has_hyphens_app_l s q Hh)).
      apply orb_true_r. }
  split_and!.
  - by apply Hgrow.
  - intros c a b Hc.
    change (String c b) with (String c "" +:+ b). apply Hgrow.
    unfold invalidTarget_test. cbn. by rewrite bool_decide_eq_true_2.
  - intros a b. by apply Hgrow.
Qed.

(** ** The canonical key *)

Lemma has_hyphens_spec s :
  has_hyphens s = true ↔ ∃ p q, s = p +:+ "--" +:+ q.
Proof.
  split.
  - induction s as [|c s IH]; [done|]. rewrite has_hyphens_cons.
    destruct s as [|c' s']; [done|].
    intros [Hcc|Hrest]%orb_prop.
    + apply andb_prop in Hcc as [->%Ascii.eqb_eq ->%Ascii.eqb_eq].
      by exists "", s'.
    + destruct (IH Hrest) as (p & q & Hs). exists (String c p), q.
      rewrite append_cons. by f_equal.
  - intros (p & q & ->).
    by apply has_hyphens_app_r, (has_hyphens_app_l "--" q).
Qed.

(** The [invalidTarget] expression matches the illegal strings. *)
Lemma invalidTarget_test_illegal s : invalidTarget_test s = true ↔ illegal s.
Proof.
  unfold invalidTarget_test, illegal.
  rewrite orb_true_iff, has_hyphens_spec, existsb_exists.
  apply or_iff_compat_r. split.
  - intros (c & Hin%list_elem_of_In & Hc%bool_decide_eq_true). by exists c.
  - intros (c & Hin%list_elem_of_In & Hc). exists c. split; [done|].
    by apply bool_decide_eq_true.
Qed.

Lemma path_key_well_formed segs :
  well_formed segs → path_key "" segs = join_dot (stringified <$> segs).
Proof.
  destruct segs as [|seg [|seg' rest]]; [done|done|].
  intros Hseg. by apply (path_key_join seg (seg' :: rest)).
Qed.

(** C7.  Resolving a target checks its field against the strategy before
    anything else: a field that a non-empty allow set lacks gives
    [NonallowedFieldError], a field in the deny set [DeniedFieldError], each
    with the field as its [data] and at the end of its message.  Then each
    segment of the path is made a string, and a segment that holds one of
    the illegal characters or two hyphens in a row gives
    [InvalidTargetError] with the pointer of the target at the end of its
    message and the path as its [data].  Otherwise the key is the strings of
    the segments joined with dots, and the field is registered.  This is for
    the paths of parsed targets, where an empty first segment is followed by
    no other. *)
Theorem target_is_checked_then_joined (t : Target) (this : Builder)
    (Hpath : well_formed (path t)) :
  (∀ s, invalidTarget_test s = true ↔ illegal s)
  ∧ (∀ seg, legal seg ↔ ¬ illegal (stringified seg))
  ∧ _target t this =
      if bool_decide (0 < size (allow (_strategy this)))
         && negb (bool_decide (field t ∈ allow (_strategy this)))
      then Err {| name := "NonallowedFieldError";
                  message :=
                    "Non-white listed field encountered: " +:+ field t;
                  data := FieldData (field t) |}
      else if bool_decide (field t ∈ deny (_strategy this))
      then Err {| name := "DeniedFieldError";
                  message := "Black listed field encountered: " +:+ field t;
                  data := FieldData (field t) |}
      else if bool_decide (Forall legal (path t))
      then Ok (join_dot (stringified <$> path t), register (field t) this)
      else Err {| name := "InvalidTargetError";
                  message :=
                    "Invalid target encountered: " +:+ toJsonPointer t;
                  data := PathData (path t) |}.
Proof.
  split; [exact invalidTarget_test_illegal|]. split.
  { intros seg. unfold legal. rewrite <- invalidTarget_test_illegal.
    by destruct (invalidTarget_test _). }
  rewrite _target_checked. unfold target_check.
  destruct (_ && _); [done|].
  destruct (decide (field t ∈ deny (_strategy this))) as [Hd|Hd].
  - rewrite (bool_decide_eq_true_2 _ Hd).
    rewrite (bool_decide_eq_true_2 (0 < size (deny (_strategy this)))); [done|].
    destruct (decide (size (deny (_strategy this)) = 0)) as [H0|]; [|lia].
    apply size_empty_inv in H0. set_solver.
  - rewrite (bool_decide_eq_false_2 _ Hd), andb_false_r.
    case_bool_decide; [|done]. by rewrite path_key_well_formed.
Qed.

(** ** What a walk keeps *)

Lemma registered_rest l : ∀ this,
  _filter (registered l this) = _filter this
  ∧ value (registered l this) = value this.
Proof.
  induction l as [|f l IH]; intros this; [done|].
  change (registered (f :: l) this) with (registered l (register f this)).
  destruct (IH (register f this)) as [-> ->].
  unfold register. by destruct (bool_decide _).
Qed.

(** A walk that succeeds, from any builder whose [_fields] set and
    [fields] list hold the same fields without repetition, leaves a
    builder of which the same is true; the list has only grown at its end,
    by the referenced fields it did not hold; and the strategy, the filter
    and the value of the builder are untouched. *)
Theorem walk_keeps_fields_in_step (filter : Filter) (this this' : Builder)
    (v : jsval)
    (Hwalk : _build filter this = Ok (v, this'))
    (Hsynced : synced this) (Hnodup : NoDup (fields this)) :
  synced this'
  ∧ NoDup (fields this')
  ∧ fields this `prefix_of` fields this'
  ∧ (∀ f, f ∈ fields this' ↔ f ∈ fields this ∨ f ∈ referenced filter)
  ∧ _strategy this' = _strategy this
  ∧ _filter this' = _filter this
  ∧ value this' = value this.
Proof.
  apply _build_registers in Hwalk as ->.
  destruct (registered_fields (referenced filter) this Hsynced) as [Hs Hf].
  destruct (registered_rest (referenced filter) this) as [Hfilter Hvalue].
  split_and!; try done.
  - rewrite Hf. apply NoDup_app. split_and!; [done| |].
    + intros f Hin (Hout & _)%list_elem_of_filter. done.
    + apply NoDup_filter, first_occurrences_NoDup.
  - rewrite Hf. by eexists.
  - intros f. rewrite Hf, elem_of_app, list_elem_of_filter,
      first_occurrences_elem.
    destruct (decide (f ∈ fields this)); naive_solver.
  - apply registered_strategy.
Qed.

Lemma _build_shape stmts this fragment this' :
  _build (mkFilter stmts) this = Ok (fragment, this') →
  ∃ fs,
    fragments stmts this = Ok (fs, this')
    ∧ length fs = length stmts
    ∧ match or_joined stmts with
      | 0 => fragment = bool_must fs
      | S n =>
          ∃ groups,
            fragment = bool_should (bool_must <$> groups)
            ∧ length groups = S (S n)
            ∧ concat groups = fs
            ∧ Forall (λ g, g ≠ []) groups
      end.
Proof.
  cbn [_build]. rewrite _build_loop_fragments.
  destruct (fragments stmts this) as [[fs this1]|e] eqn:Hfs; [|done].
  intros [= <- <-]. exists fs. split; [done|].
  apply fragments_length in Hfs. split; [done|].
  destruct stmts as [|s rest]; destruct fs as [|f fs]; try done.
  injection Hfs as Hlen.
  unfold or_joined. cbn [tail with_conjunctions fmap list_fmap zip zip_with].
  fold (with_conjunctions rest fs).
  cbn [group_loop length]. rewrite andb_false_r.
  rewrite group_loop_and_groups by done.
  rewrite with_conjunctions_snd, count_or_with_conjunctions by done.
  destruct (length (filter _ rest)) as [|n] eqn:Hor; cbn; [done|].
  eexists. split_and!; [done| | |].
  - by rewrite and_groups_from_length, count_or_with_conjunctions, Hor.
  - by rewrite and_groups_from_concat, with_conjunctions_snd.
  - by apply and_groups_from_nonempty.
Qed.

(** The document of a conversion that succeeds is an object with the
    single key [filter].  Under it is [{ bool: { must: fs } }] with one
    fragment per statement when no statement is joined by OR, and
    otherwise [{ bool: { should: [...] } }] with one
    [{ bool: { must: g } }] per group, at least two groups, none of them
    empty, and one fragment per statement over all the groups. *)
Theorem converted_document_shape (filter : FilterArg)
    (strategy : option StrategyArg) (r : Converted.t)
    (Hconvert : convert filter strategy = Ok r) :
  ∃ stmts fragment,
    filter = FilterInstance (mkFilter stmts)
    ∧ Converted.value r = JObj [("filter", fragment)]
    ∧ keys (Converted.value r) = ["filter"]
    ∧ ((or_joined stmts = 0
        ∧ ∃ fs, fragment = JObj [("bool", JObj [("must", JArr fs)])]
                ∧ length fs = length stmts)
       ∨ (∃ groups : list (list jsval),
            fragment =
              JObj [("bool",
                      JObj [("should",
                              JArr ((λ g, JObj [("bool",
                                                  JObj [("must", JArr g)])])
                                      <$> groups))])]
            ∧ length groups = S (or_joined stmts)
            ∧ (2 ≤ length groups)%nat
            ∧ length (concat groups) = length stmts
            ∧ Forall (λ g, g ≠ []) groups)).
Proof.
  destruct filter as [[stmts]|v]; [|discriminate].
  assert (∃ s, convert (FilterInstance (mkFilter stmts))
                 (Some (StrategyInstance s)) = Ok r) as [s Hs].
  { eapply convert_ok_strategy; eassumption. }
  rewrite convert_walk in Hs.
  destruct (_build _ _) as [[fragment this']|e] eqn:Hb; [|discriminate].
  destruct (validate_loop _ _); [|discriminate].
  injection Hs as <-. exists stmts, fragment. split_and!; try done.
  apply _build_shape in Hb as (fs & _ & Hlen & Hshape).
  destruct (or_joined stmts) as [|n].
  - left. split; [done|]. by exists fs.
  - right. destruct Hshape as (groups & -> & Hgroups & Hconcat & Hne).
    exists groups. split_and!; try done; [lia|by rewrite Hconcat].
Qed.

(** ** The grammar of the output *)

Lemma yields_ret {A} (P : A → Prop) a : P a → yields P (ret a).
Proof. intros Ha this a' this' [= <- _]. exact Ha. Qed.

Lemma yields_throw {A} (P : A → Prop) e : yields P (throw e).
Proof. intros this a this' [=]. Qed.

Lemma yields_bind {A B} (Q : A → Prop) (P : B → Prop) (m : M A) (k : A → M B) :
  yields Q m → (∀ a, Q a → yields P (k a)) → yields P (bind m k).
Proof.
  intros Hm Hk this b this'. unfold bind.
  destruct (m this) as [[a this1]|] eqn:Ha; [|done].
  apply (Hk a); by eapply Hm.
Qed.

Lemma yields_any {A} (m : M A) : yields (λ _, True) m.
Proof. by intros this a this' _. Qed.

Lemma is_primitive_obj1 k body : k ∈ primitives → is_primitive (obj1 k body).
Proof. intros Hk. by exists k, body. Qed.

Ltac primitive :=
  apply is_primitive_obj1; unfold primitives; set_solver.

Lemma yields_exists c : yields is_primitive (_exists c).
Proof.
  unfold _exists. eapply yields_bind; [apply yields_any|].
  intros key _. apply yields_ret. primitive.
Qed.

Lemma yields_range c : yields is_primitive (_range c).
Proof.
  unfold _range. eapply yields_bind; [apply yields_any|].
  intros key _. apply yields_ret. primitive.
Qed.

Lemma yields_term c :
  yields is_primitive (x <- _comparison c ;; ret (obj1 "term" x)).
Proof.
  eapply yields_bind; [apply yields_any|].
  intros key _. apply yields_ret. primitive.
Qed.

Lemma yields_like c : yields is_primitive (_like c).
Proof.
  unfold _like. destruct (object c) as [| | | | | | | |[]|];
    try apply yields_throw.
  eapply yields_bind; [apply yields_any|].
  intros key _. apply yields_ret. primitive.
Qed.

Lemma yields_between c : yields is_primitive (_between c).
Proof.
  unfold _between. destruct (object c); try apply yields_throw.
  eapply yields_bind; [apply yields_any|].
  intros key _. apply yields_ret. primitive.
Qed.

Lemma yields_in c : yields is_primitive (_in c).
Proof.
  unfold _in. destruct (object c); try apply yields_throw.
  eapply yields_bind; [apply yields_any|].
  intros key _. apply yields_ret. primitive.
Qed.

Lemma yields_negation (m : M jsval) :
  yields is_primitive m → yields fragment_ok (x <- m ;; ret (not_ x)).
Proof.
  intros Hm. eapply yields_bind; [exact Hm|].
  intros f Hf. apply yields_ret. by apply ok_not.
Qed.

Lemma yields_primitive (m : M jsval) :
  yields is_primitive m → yields fragment_ok m.
Proof. intros Hm this a this' Ha. apply ok_primitive. by eapply Hm. Qed.

Lemma yields_build_clause (sval : Clause) :
  yields fragment_ok (_build_clause sval).
Proof.
  unfold _build_clause.
  destruct (_ && _).
  { apply yields_primitive. unfold _scriptTargets.
    eapply yields_bind; [apply yields_any|]. intros s _.
    eapply yields_bind; [apply yields_any|]. intros op _.
    eapply yields_bind; [apply yields_any|]. intros o _.
    apply yields_ret. primitive. }
  destruct (_ && _).
  { apply yields_primitive. intros this f this'.
    unfold lift, scriptLiterals.
    destruct (scriptOperator _); [|done]. intros [= <- _]. primitive. }
  generalize (normalizeClause sval). intros clause. cbn zeta.
  unfold _eq, _neq, _gt, _gte, _lt, _lte, _nlike, _nbetween, _nin.
  unfold _eq.
  repeat (case_eqb;
          [ destruct (is_null (object clause));
            first [ apply yields_negation | apply yields_primitive ];
            first [ apply yields_exists | apply yields_range
                  | apply yields_term ]
          | ]).
  repeat (case_eqb;
          [ first [ apply yields_negation | apply yields_primitive ];
            first [ apply yields_like | apply yields_between
                  | apply yields_in ]
          | ]).
  apply yields_throw.
Qed.

Lemma fragments_ok stmts :
  Forall (holds_of_subfilter (λ sub, yields fragment_ok (_build sub))) stmts →
  yields (Forall fragment_ok) (fragments stmts).
Proof.
  induction 1 as [|s rest Hs _ IH]; cbn [fragments].
  - by apply yields_ret.
  - eapply (yields_bind fragment_ok).
    + unfold _build_statement, holds_of_subfilter in *.
      destruct (statement_value s);
        [assumption|apply yields_build_clause|apply yields_throw].
    + intros f Hf. eapply yields_bind; [exact IH|].
      intros fs Hfs. apply yields_ret. by constructor.
Qed.

Lemma yields_build filter : yields fragment_ok (_build filter).
Proof.
  induction filter as [stmts IH] using Filter_induction.
  intros this fragment this' Hb.
  apply _build_shape in Hb as (fs & Hfs & _ & Hshape).
  apply (fragments_ok stmts IH) in Hfs.
  destruct (or_joined stmts).
  - subst fragment. by apply ok_must.
  - destruct Hshape as (groups & -> & _ & <- & _).
    apply ok_should. by apply Forall_concat.
Qed.

Lemma is_primitive_not f : ¬ is_primitive (not_ f).
Proof.
  intros (k & body & Hk & [= <- _]). unfold primitives in Hk. set_solver.
Qed.

Lemma fragment_ok_not_not f : ¬ fragment_ok (not_ (not_ f)).
Proof.
  intros H. inversion H as [g Hg|g Hg Heq|fs _ Heq|groups _ Heq]; subst;
    try discriminate; by apply is_primitive_not in Hg.
Qed.

(** The document of a conversion that succeeds belongs to a closed
    grammar: under [filter] it is built only from objects with the single
    key [term], [terms], [range], [regexp], [exists] or [script], from
    [{ bool: { must_not: p } }] around one of those, and from
    [{ bool: { must: [...] } }] and [{ bool: { should: [...] } }] over
    documents of the grammar, the entries of [should] being [must]
    conjunctions.  A negation is never negated again. *)
Theorem converted_document_in_grammar (filter : FilterArg)
    (strategy : option StrategyArg) (r : Converted.t)
    (Hconvert : convert filter strategy = Ok r) :
  (∃ fragment,
     Converted.value r = obj1 "filter" fragment ∧ fragment_ok fragment)
  ∧ (∀ f, ¬ fragment_ok (not_ (not_ f)))
  ∧ ¬ fragment_ok JNull.
Proof.
  split; [|split; [apply fragment_ok_not_not|]].
  2:{ intros H. inversion H as [g (k & body & _ & Heq)| | |]. discriminate. }
  destruct filter as [f|v]; [|discriminate].
  assert (∃ s, convert (FilterInstance f) (Some (StrategyInstance s)) = Ok r)
    as [s Hs].
  { eapply convert_ok_strategy; eassumption. }
  rewrite convert_walk in Hs.
  destruct (_build f _) as [[fragment this']|e] eqn:Hb; [|discriminate].
  destruct (validate_loop _ _); [|discriminate].
  injection Hs as <-. exists fragment. split; [done|].
  by eapply yields_build.
Qed.

(** ** The further properties at concrete inputs *)

(** [/foo between 1,5]. *)
Lemma between_emits_closed_range_witness :
  is_Target (JRange (JNum 1) (JNum 5)) = false
  ∧ _build_clause
      (clause_of (JTarget Examples.foo) "between" (JRange (JNum 1) (JNum 5)))
      Examples.this0 =
      Ok (JObj [("range",
                  JObj [("foo", JObj [("gte", JNum 1); ("lte", JNum 5)])])],
          register "/foo" Examples.this0).
Proof.
  split; [reflexivity|].
  rewrite (proj1 (between_emits_closed_range Examples.foo
                    (JRange (JNum 1) (JNum 5)) Examples.this0 eq_refl)).
  vm_compute. reflexivity.
Defined.

(** [/foo in [1, 1, "a"]]: the array is kept as it is. *)
Lemma in_emits_terms_verbatim_witness :
  is_Target (JArr [JNum 1; JNum 1; JStr "a"]) = false
  ∧ _build_clause
      (clause_of (JTarget Examples.foo) "in" (JArr [JNum 1; JNum 1; JStr "a"]))
      Examples.this0 =
      Ok (JObj [("terms", JObj [("foo", JArr [JNum 1; JNum 1; JStr "a"])])],
          register "/foo" Examples.this0).
Proof.
  split; [reflexivity|].
  rewrite (proj1 (in_emits_terms_verbatim Examples.foo
                    (JArr [JNum 1; JNum 1; JStr "a"]) Examples.this0 eq_refl)).
  vm_compute. reflexivity.
Defined.

(** [/foo regex 1], with an operator that is not one of the twelve. *)
Lemma unknown_operator_fails_unresolved_witness :
  xorb (is_Target (JTarget Examples.foo)) (is_Target (JNum 1)) = true
  ∧ ("regex" ∉ operators)
  ∧ _build_clause (clause_of (JTarget Examples.foo) "regex" (JNum 1))
      Examples.this0 =
      Err (errors.ConvertError (Some "undefinedregex")).
Proof.
  assert ("regex" ∉ operators) as Hop
    by (apply (bool_decide_eq_false_1 _); vm_compute; reflexivity).
  split; [reflexivity|]. split; [exact Hop|].
  exact (proj1 (unknown_operator_fails_unresolved (JTarget Examples.foo)
                  (JNum 1) "regex" Examples.this0 eq_refl Hop)).
Defined.

(** A statement whose value is the string [bork], after one that
    compiles. *)
Lemma first_failing_statement_aborts_witness :
  _build
    (mkFilter
       (Inputs.corrupted_before ++ Inputs.corrupted :: Inputs.corrupted_after))
    Examples.this0 =
    Err (errors.ConvertError None).
Proof.
  eapply proj1, first_failing_statement_aborts.
  - vm_compute. reflexivity.
  - reflexivity.
Defined.

(** [new Strategy({ allow: ['/foo', '/bar', '/foo'] })]. *)
Lemma Strategy_new_holds_settings_witness :
  let s := {| Settings.allow := JArr [JStr "/foo"; JStr "/bar"; JStr "/foo"];
              Settings.deny := JUndefined;
              Settings.require := None |} in
  let strategy := {| allow := {["/foo"; "/bar"]}; deny := ∅; require := [] |} in
  Strategy_new (ArgObject s) = Ok strategy
  ∧ ∀ f, f ∈ allow strategy ↔
           ∃ items, Settings.allow s = JArr items ∧ JStr f ∈ items.
Proof.
  cbn zeta.
  assert (Strategy_new
            (ArgObject
               {| Settings.allow := JArr [JStr "/foo"; JStr "/bar"; JStr "/foo"];
                  Settings.deny := JUndefined;
                  Settings.require := None |}) =
            Ok {| allow := {["/foo"; "/bar"]}; deny := ∅; require := [] |})
    as Hnew by (vm_compute; reflexivity).
  split; [exact Hnew|].
  exact (proj1 (Strategy_new_holds_settings _ _ Hnew)).
Defined.

(** [/foo eq 42 and /bar gt 0] under a strategy that allows both fields
    and requires [/foo]. *)
Lemma successful_conversion_is_governed_witness :
  ∃ r,
    convert (FilterInstance Inputs.foo_and_bar)
      (Some (StrategyInstance Inputs.allowing)) = Ok r
    ∧ (∀ f, f ∈ Converted.fields r → permitted Inputs.allowing f)
    ∧ (∀ req, req ∈ require Inputs.allowing → req ∈ Converted.fields r).
Proof.
  eexists. split; [vm_compute; reflexivity|].
  edestruct (successful_conversion_is_governed Inputs.foo_and_bar
               Inputs.allowing) as (_ & Hfields & Hrequired).
  { vm_compute. reflexivity. }
  split; [exact Hfields|exact Hrequired].
Defined.

(** [/foo eq 42 and /bar gt 0] under a strategy that denies [/foo]. *)
Lemma conversion_error_has_cause_witness :
  ∃ e,
    convert (FilterInstance Inputs.foo_and_bar)
      (Some (StrategyInstance Inputs.denying)) = Err e
    ∧ e = {| name := "DeniedFieldError";
             message := "Black listed field encountered: /foo";
             data := FieldData "/foo" |}
    ∧ caused_by Inputs.foo_and_bar Inputs.denying e.
Proof.
  eexists. split; [vm_compute; reflexivity|]. split; [reflexivity|].
  apply conversion_error_has_cause. vm_compute. reflexivity.
Defined.

(** [/foo eq 42 and /bar gt 0] with the strategy omitted and under a
    strategy that allows both fields. *)
Lemma strategy_does_not_alter_output_witness :
  ∃ r1 r2,
    convert (FilterInstance Inputs.foo_and_bar) None = Ok r1
    ∧ convert (FilterInstance Inputs.foo_and_bar)
        (Some (StrategyInstance Inputs.allowing)) = Ok r2
    ∧ r1 = r2.
Proof.
  eexists _, _. split; [vm_compute; reflexivity|].
  split; [vm_compute; reflexivity|].
  eapply (strategy_does_not_alter_output
            (FilterInstance Inputs.foo_and_bar) None
            (Some (StrategyInstance Inputs.allowing)));
    vm_compute; reflexivity.
Defined.

(** [/foo] resolved twice. *)
Lemma resolving_again_changes_nothing_witness :
  let this' := register "/foo" Examples.this0 in
  _target Examples.foo Examples.this0 = Ok ("foo", this')
  ∧ _target Examples.foo this' = Ok ("foo", this').
Proof.
  cbn zeta.
  assert (_target Examples.foo Examples.this0 =
            Ok ("foo", register "/foo" Examples.this0)) as Hfirst
    by (vm_compute; reflexivity).
  split; [exact Hfirst|].
  exact (proj1 (resolving_again_changes_nothing _ _ _ _ Hfirst)).
Defined.

(** [/foo/bar] resolves to [foo.bar]. *)
Lemma canonical_key_joins_segments_witness :
  target_check (_strategy Examples.this0) Examples.foo_bar = None
  ∧ head (stringified <$> path Examples.foo_bar) ≠ Some ""
  ∧ _target Examples.foo_bar Examples.this0 =
      Ok ("foo.bar", register "/foo/bar" Examples.this0).
Proof.
  assert (target_check (_strategy Examples.this0) Examples.foo_bar = None)
    as Hcheck by (vm_compute; reflexivity).
  assert (head (stringified <$> path Examples.foo_bar) ≠ Some "")
    as Hhead by (vm_compute; discriminate).
  split; [exact Hcheck|]. split; [exact Hhead|].
  exact (canonical_key_joins_segments Examples.foo_bar Examples.this0
           Hcheck Hhead).
Defined.

(** [#] inside [a#b]. *)
Lemma illegal_anywhere_in_segment_witness :
  invalidTarget_test "#" = true
  ∧ invalidTarget_test ("a" +:+ "#" +:+ "b") = true.
Proof.
  split; [reflexivity|].
  exact (proj1 (illegal_anywhere_in_segment "a" "#" "b" eq_refl)).
Defined.

(** [fields_example] walked by a builder that already holds [/bar]. *)
Lemma walk_keeps_fields_in_step_witness :
  ∃ v this',
    _build fields_example (register "/bar" Examples.this0) = Ok (v, this')
    ∧ fields this' = ["/bar"; "/foo"; "/baz"]
    ∧ NoDup (fields this')
    ∧ fields (register "/bar" Examples.this0) `prefix_of` fields this'.
Proof.
  eexists _, _. split; [vm_compute; reflexivity|].
  split; [reflexivity|].
  edestruct (walk_keeps_fields_in_step fields_example
               (register "/bar" Examples.this0)) as (_ & Hnodup & Hprefix & _).
  - vm_compute. reflexivity.
  - apply register_synced, start_synced.
  - vm_compute. repeat constructor. apply not_elem_of_nil.
  - split; [exact Hnodup|exact Hprefix].
Defined.

(** The document of [/foo eq 42 or /bar gt 0]. *)
Lemma converted_document_shape_witness :
  ∃ r,
    convert (FilterInstance Inputs.foo_or_bar) None = Ok r
    ∧ keys (Converted.value r) = ["filter"].
Proof.
  eexists. split; [vm_compute; reflexivity|].
  edestruct (converted_document_shape (FilterInstance Inputs.foo_or_bar) None)
    as (stmts & fragment & _ & _ & Hkeys & _).
  { vm_compute. reflexivity. }
  exact Hkeys.
Defined.

(** The document of [/foo eq 42 or /bar gt 0] is in the grammar. *)
Lemma converted_document_in_grammar_witness :
  ∃ r,
    convert (FilterInstance Inputs.foo_or_bar) None = Ok r
    ∧ ∃ fragment,
        Converted.value r = obj1 "filter" fragment ∧ fragment_ok fragment.
Proof.
  eexists. split; [vm_compute; reflexivity|].
  edestruct (converted_document_in_grammar (FilterInstance Inputs.foo_or_bar)
               None) as (Hgrammar & _).
  { vm_compute. reflexivity. }
  exact Hgrammar.
Defined.

(** [/foo] under [new Strategy({ deny: ['/foo'] })]. *)
Lemma target_outcome_witness :
  Strategy_new
    (ArgObject {| Settings.allow := JUndefined;
                  Settings.deny := JArr [JStr "/foo"];
                  Settings.require := None |}) = Ok Inputs.denying
  ∧ _target Examples.foo (start (mkFilter []) Inputs.denying) =
      Err {| name := "DeniedFieldError";
             message := "Black listed field encountered: /foo";
             data := FieldData "/foo" |}.
Proof.
  assert (Strategy_new
            (ArgObject {| Settings.allow := JUndefined;
                          Settings.deny := JArr [JStr "/foo"];
                          Settings.require := None |}) = Ok Inputs.denying)
    as Hnew by (vm_compute; reflexivity).
  split; [exact Hnew|].
  rewrite (_target_outcome _ _ Examples.foo
             (start (mkFilter []) Inputs.denying) Hnew eq_refl).
  vm_compute. reflexivity.
Defined.

(** [/foo/bar] under the default strategy, and [/fo*o] with its illegal
    segment. *)
Lemma target_is_checked_then_joined_witness :
  well_formed (path Examples.foo_bar)
  ∧ _target Examples.foo_bar Examples.this0 =
      Ok ("foo.bar", register "/foo/bar" Examples.this0)
  ∧ well_formed (path (Examples.target "/fo*o" ["fo*o"]))
  ∧ _target (Examples.target "/fo*o" ["fo*o"]) Examples.this0 =
      Err {| name := "InvalidTargetError";
             message := "Invalid target encountered: /fo*o";
             data := PathData [SegStr "fo*o"] |}.
Proof.
  assert (well_formed (path Examples.foo_bar)) as H1 by (cbn; discriminate).
  assert (well_formed (path (Examples.target "/fo*o" ["fo*o"]))) as H2
    by exact I.
  split; [exact H1|]. split.
  { rewrite (proj2 (proj2 (target_is_checked_then_joined Examples.foo_bar
                             Examples.this0 H1))).
    vm_compute. reflexivity. }
  split; [exact H2|].
  rewrite (proj2 (proj2 (target_is_checked_then_joined
                           (Examples.target "/fo*o" ["fo*o"])
                           Examples.this0 H2))).
  vm_compute. reflexivity.
Defined.
